(** * Rascacielos: the gameplay core of [MainScene.ts]

    A shallow embedding of the block-stacking scene ([src/scenes/MainScene.ts],
    started from [main.ts]) and the properties of its placement judge, scoring,
    block motion and restart logic.

    Modelling conventions.
    - A JavaScript [number] that only ever holds an integer ([score],
      [highScore], [level], [perfectStreak], colours) is a [Z]; every other
      [number] (positions, speeds, times) is an exact rational [Q].  IEEE
      rounding, NaN and signed zero are not modelled.
    - [Phaser.GameObjects.Rectangle] objects live in a store, [rectangles], and
      are named by their index in it: [currentBlock] and [stackedBlocks] hold
      references, so the active block and the top of the stack can be the same
      object, as they are in the source between the [push] in [placeBlock] and
      the next [createNewBlock].
    - A function returns [None] where the JavaScript would throw a [TypeError]
      (indexing [blockTypes] out of range) and on a dangling reference, which
      JavaScript cannot build.
    - [Math.random()] results are arguments of the functions that draw them.
    - Tweens, particles, texts, the camera and the glow are presentation and are
      left out; a text or timer object that exists once [create] has run is
      taken to exist. *)

From Stdlib Require Import ZArith QArith Qabs Qround Qminmax Lia Lqa.
From stdpp Require Import base option list.

Open Scope Q_scope.

(** ** Numbers *)

Definition Qltb (x y : Q) : bool := negb (Qle_bool y x).
Definition Qgtb (x y : Q) : bool := Qltb y x.
Definition Qgeb (x y : Q) : bool := Qle_bool y x.

(** [Phaser.Math.Clamp(value, min, max)] is [Math.max(min, Math.min(max, value))]. *)
Definition Clamp (value min max : Q) : Q := Qmax min (Qmin max value).

(** [Phaser.Math.Linear(p0, p1, t)] is [(p1 - p0) * t + p0]. *)
Definition Linear (p0 p1 t : Q) : Q := (p1 - p0) * t + p0.

(** [Phaser.Math.Between(min, max)] is
    [Math.floor(Math.random() * (max - min + 1) + min)]; [rnd] is the value
    [Math.random()] returned. *)
Definition Between (min max rnd : Q) : Q :=
  inject_Z (Qfloor (rnd * (max - min + 1) + min)).

(** ** Data *)

Inductive BlockType := standard | wide | narrow | fast.

Definition COLORS (t : BlockType) : Z :=
  match t with
  | standard => 0x4CAF50
  | wide => 0x2196F3
  | narrow => 0xFF4081
  | fast => 0xFFC107
  end%Z.

Record BlockConfig := {
  width : Q;
  height : Q;
  color : Z;
  speed : Q
}.

(** The fields of a [Phaser.GameObjects.Rectangle] the scene reads or writes. *)
Record Rectangle := {
  rect_x : Q;
  rect_y : Q;
  rect_width : Q;
  rect_height : Q;
  rect_fill : Z
}.

Definition rect_set_x (x : Q) (r : Rectangle) : Rectangle :=
  {| rect_x := x; rect_y := rect_y r; rect_width := rect_width r;
     rect_height := rect_height r; rect_fill := rect_fill r |}.

(** The browser's [localStorage] entry ['cityBloxxState'].  [getItem] and
    [setItem] throw when storage is unavailable; an available store holds
    either nothing or the [highScore] of the JSON object saved last. *)
Inductive Storage :=
| StorageUnavailable
| StorageAvailable (item : option Z).

(** The mutable fields of [class MainScene], the object store, the storage
    and the number of [placeBlock] calls suspended in their 50 ms
    [delayedCall]. *)
Record MainScene := {
  currentBlock : option nat;
  stackedBlocks : list nat;
  blockShadows : list Rectangle;
  rectangles : list Rectangle;
  score : Z;
  highScore : Z;
  gameOver : bool;
  isPaused : bool;
  moveSpeed : Q;
  gameWidth : Q;
  gameHeight : Q;
  level : Z;
  placementGuide : bool;
  baseY : Q;
  perfectStreak : Z;
  currentVelocity : Q;
  lastFrameTime : Q;
  localStorage : Storage;
  pendingSpawns : nat
}.

(** Field assignments.  [placementGuide] has none: no statement of the source
    assigns it. *)
Definition set_currentBlock (v : option nat) (s : MainScene) : MainScene :=
  {| currentBlock := v; stackedBlocks := stackedBlocks s; blockShadows := blockShadows s;
     rectangles := rectangles s; score := score s; highScore := highScore s; gameOver := gameOver
     s; isPaused := isPaused s; moveSpeed := moveSpeed s; gameWidth := gameWidth s; gameHeight :=
     gameHeight s; level := level s; placementGuide := placementGuide s; baseY := baseY s;
     perfectStreak := perfectStreak s; currentVelocity := currentVelocity s; lastFrameTime :=
     lastFrameTime s; localStorage := localStorage s; pendingSpawns := pendingSpawns s |}.

Definition set_stackedBlocks (v : list nat) (s : MainScene) : MainScene :=
  {| currentBlock := currentBlock s; stackedBlocks := v; blockShadows := blockShadows s;
     rectangles := rectangles s; score := score s; highScore := highScore s; gameOver := gameOver
     s; isPaused := isPaused s; moveSpeed := moveSpeed s; gameWidth := gameWidth s; gameHeight :=
     gameHeight s; level := level s; placementGuide := placementGuide s; baseY := baseY s;
     perfectStreak := perfectStreak s; currentVelocity := currentVelocity s; lastFrameTime :=
     lastFrameTime s; localStorage := localStorage s; pendingSpawns := pendingSpawns s |}.

Definition set_blockShadows (v : list Rectangle) (s : MainScene) : MainScene :=
  {| currentBlock := currentBlock s; stackedBlocks := stackedBlocks s; blockShadows := v;
     rectangles := rectangles s; score := score s; highScore := highScore s; gameOver := gameOver
     s; isPaused := isPaused s; moveSpeed := moveSpeed s; gameWidth := gameWidth s; gameHeight :=
     gameHeight s; level := level s; placementGuide := placementGuide s; baseY := baseY s;
     perfectStreak := perfectStreak s; currentVelocity := currentVelocity s; lastFrameTime :=
     lastFrameTime s; localStorage := localStorage s; pendingSpawns := pendingSpawns s |}.

Definition set_rectangles (v : list Rectangle) (s : MainScene) : MainScene :=
  {| currentBlock := currentBlock s; stackedBlocks := stackedBlocks s; blockShadows :=
     blockShadows s; rectangles := v; score := score s; highScore := highScore s; gameOver :=
     gameOver s; isPaused := isPaused s; moveSpeed := moveSpeed s; gameWidth := gameWidth s;
     gameHeight := gameHeight s; level := level s; placementGuide := placementGuide s; baseY :=
     baseY s; perfectStreak := perfectStreak s; currentVelocity := currentVelocity s;
     lastFrameTime := lastFrameTime s; localStorage := localStorage s; pendingSpawns :=
     pendingSpawns s |}.

Definition set_score (v : Z) (s : MainScene) : MainScene :=
  {| currentBlock := currentBlock s; stackedBlocks := stackedBlocks s; blockShadows :=
     blockShadows s; rectangles := rectangles s; score := v; highScore := highScore s; gameOver
     := gameOver s; isPaused := isPaused s; moveSpeed := moveSpeed s; gameWidth := gameWidth s;
     gameHeight := gameHeight s; level := level s; placementGuide := placementGuide s; baseY :=
     baseY s; perfectStreak := perfectStreak s; currentVelocity := currentVelocity s;
     lastFrameTime := lastFrameTime s; localStorage := localStorage s; pendingSpawns :=
     pendingSpawns s |}.

Definition set_highScore (v : Z) (s : MainScene) : MainScene :=
  {| currentBlock := currentBlock s; stackedBlocks := stackedBlocks s; blockShadows :=
     blockShadows s; rectangles := rectangles s; score := score s; highScore := v; gameOver :=
     gameOver s; isPaused := isPaused s; moveSpeed := moveSpeed s; gameWidth := gameWidth s;
     gameHeight := gameHeight s; level := level s; placementGuide := placementGuide s; baseY :=
     baseY s; perfectStreak := perfectStreak s; currentVelocity := currentVelocity s;
     lastFrameTime := lastFrameTime s; localStorage := localStorage s; pendingSpawns :=
     pendingSpawns s |}.

Definition set_gameOver (v : bool) (s : MainScene) : MainScene :=
  {| currentBlock := currentBlock s; stackedBlocks := stackedBlocks s; blockShadows :=
     blockShadows s; rectangles := rectangles s; score := score s; highScore := highScore s;
     gameOver := v; isPaused := isPaused s; moveSpeed := moveSpeed s; gameWidth := gameWidth s;
     gameHeight := gameHeight s; level := level s; placementGuide := placementGuide s; baseY :=
     baseY s; perfectStreak := perfectStreak s; currentVelocity := currentVelocity s;
     lastFrameTime := lastFrameTime s; localStorage := localStorage s; pendingSpawns :=
     pendingSpawns s |}.

Definition set_isPaused (v : bool) (s : MainScene) : MainScene :=
  {| currentBlock := currentBlock s; stackedBlocks := stackedBlocks s; blockShadows :=
     blockShadows s; rectangles := rectangles s; score := score s; highScore := highScore s;
     gameOver := gameOver s; isPaused := v; moveSpeed := moveSpeed s; gameWidth := gameWidth s;
     gameHeight := gameHeight s; level := level s; placementGuide := placementGuide s; baseY :=
     baseY s; perfectStreak := perfectStreak s; currentVelocity := currentVelocity s;
     lastFrameTime := lastFrameTime s; localStorage := localStorage s; pendingSpawns :=
     pendingSpawns s |}.

Definition set_moveSpeed (v : Q) (s : MainScene) : MainScene :=
  {| currentBlock := currentBlock s; stackedBlocks := stackedBlocks s; blockShadows :=
     blockShadows s; rectangles := rectangles s; score := score s; highScore := highScore s;
     gameOver := gameOver s; isPaused := isPaused s; moveSpeed := v; gameWidth := gameWidth s;
     gameHeight := gameHeight s; level := level s; placementGuide := placementGuide s; baseY :=
     baseY s; perfectStreak := perfectStreak s; currentVelocity := currentVelocity s;
     lastFrameTime := lastFrameTime s; localStorage := localStorage s; pendingSpawns :=
     pendingSpawns s |}.

Definition set_gameWidth (v : Q) (s : MainScene) : MainScene :=
  {| currentBlock := currentBlock s; stackedBlocks := stackedBlocks s; blockShadows :=
     blockShadows s; rectangles := rectangles s; score := score s; highScore := highScore s;
     gameOver := gameOver s; isPaused := isPaused s; moveSpeed := moveSpeed s; gameWidth := v;
     gameHeight := gameHeight s; level := level s; placementGuide := placementGuide s; baseY :=
     baseY s; perfectStreak := perfectStreak s; currentVelocity := currentVelocity s;
     lastFrameTime := lastFrameTime s; localStorage := localStorage s; pendingSpawns :=
     pendingSpawns s |}.

Definition set_gameHeight (v : Q) (s : MainScene) : MainScene :=
  {| currentBlock := currentBlock s; stackedBlocks := stackedBlocks s; blockShadows :=
     blockShadows s; rectangles := rectangles s; score := score s; highScore := highScore s;
     gameOver := gameOver s; isPaused := isPaused s; moveSpeed := moveSpeed s; gameWidth :=
     gameWidth s; gameHeight := v; level := level s; placementGuide := placementGuide s; baseY :=
     baseY s; perfectStreak := perfectStreak s; currentVelocity := currentVelocity s;
     lastFrameTime := lastFrameTime s; localStorage := localStorage s; pendingSpawns :=
     pendingSpawns s |}.

Definition set_level (v : Z) (s : MainScene) : MainScene :=
  {| currentBlock := currentBlock s; stackedBlocks := stackedBlocks s; blockShadows :=
     blockShadows s; rectangles := rectangles s; score := score s; highScore := highScore s;
     gameOver := gameOver s; isPaused := isPaused s; moveSpeed := moveSpeed s; gameWidth :=
     gameWidth s; gameHeight := gameHeight s; level := v; placementGuide := placementGuide s;
     baseY := baseY s; perfectStreak := perfectStreak s; currentVelocity := currentVelocity s;
     lastFrameTime := lastFrameTime s; localStorage := localStorage s; pendingSpawns :=
     pendingSpawns s |}.

Definition set_baseY (v : Q) (s : MainScene) : MainScene :=
  {| currentBlock := currentBlock s; stackedBlocks := stackedBlocks s; blockShadows :=
     blockShadows s; rectangles := rectangles s; score := score s; highScore := highScore s;
     gameOver := gameOver s; isPaused := isPaused s; moveSpeed := moveSpeed s; gameWidth :=
     gameWidth s; gameHeight := gameHeight s; level := level s; placementGuide := placementGuide
     s; baseY := v; perfectStreak := perfectStreak s; currentVelocity := currentVelocity s;
     lastFrameTime := lastFrameTime s; localStorage := localStorage s; pendingSpawns :=
     pendingSpawns s |}.

Definition set_perfectStreak (v : Z) (s : MainScene) : MainScene :=
  {| currentBlock := currentBlock s; stackedBlocks := stackedBlocks s; blockShadows :=
     blockShadows s; rectangles := rectangles s; score := score s; highScore := highScore s;
     gameOver := gameOver s; isPaused := isPaused s; moveSpeed := moveSpeed s; gameWidth :=
     gameWidth s; gameHeight := gameHeight s; level := level s; placementGuide := placementGuide
     s; baseY := baseY s; perfectStreak := v; currentVelocity := currentVelocity s; lastFrameTime
     := lastFrameTime s; localStorage := localStorage s; pendingSpawns := pendingSpawns s |}.

Definition set_currentVelocity (v : Q) (s : MainScene) : MainScene :=
  {| currentBlock := currentBlock s; stackedBlocks := stackedBlocks s; blockShadows :=
     blockShadows s; rectangles := rectangles s; score := score s; highScore := highScore s;
     gameOver := gameOver s; isPaused := isPaused s; moveSpeed := moveSpeed s; gameWidth :=
     gameWidth s; gameHeight := gameHeight s; level := level s; placementGuide := placementGuide
     s; baseY := baseY s; perfectStreak := perfectStreak s; currentVelocity := v; lastFrameTime
     := lastFrameTime s; localStorage := localStorage s; pendingSpawns := pendingSpawns s |}.

Definition set_lastFrameTime (v : Q) (s : MainScene) : MainScene :=
  {| currentBlock := currentBlock s; stackedBlocks := stackedBlocks s; blockShadows :=
     blockShadows s; rectangles := rectangles s; score := score s; highScore := highScore s;
     gameOver := gameOver s; isPaused := isPaused s; moveSpeed := moveSpeed s; gameWidth :=
     gameWidth s; gameHeight := gameHeight s; level := level s; placementGuide := placementGuide
     s; baseY := baseY s; perfectStreak := perfectStreak s; currentVelocity := currentVelocity s;
     lastFrameTime := v; localStorage := localStorage s; pendingSpawns := pendingSpawns s |}.

Definition set_localStorage (v : Storage) (s : MainScene) : MainScene :=
  {| currentBlock := currentBlock s; stackedBlocks := stackedBlocks s; blockShadows :=
     blockShadows s; rectangles := rectangles s; score := score s; highScore := highScore s;
     gameOver := gameOver s; isPaused := isPaused s; moveSpeed := moveSpeed s; gameWidth :=
     gameWidth s; gameHeight := gameHeight s; level := level s; placementGuide := placementGuide
     s; baseY := baseY s; perfectStreak := perfectStreak s; currentVelocity := currentVelocity s;
     lastFrameTime := lastFrameTime s; localStorage := v; pendingSpawns := pendingSpawns s |}.

Definition set_pendingSpawns (v : nat) (s : MainScene) : MainScene :=
  {| currentBlock := currentBlock s; stackedBlocks := stackedBlocks s; blockShadows :=
     blockShadows s; rectangles := rectangles s; score := score s; highScore := highScore s;
     gameOver := gameOver s; isPaused := isPaused s; moveSpeed := moveSpeed s; gameWidth :=
     gameWidth s; gameHeight := gameHeight s; level := level s; placementGuide := placementGuide
     s; baseY := baseY s; perfectStreak := perfectStreak s; currentVelocity := currentVelocity s;
     lastFrameTime := lastFrameTime s; localStorage := localStorage s; pendingSpawns := v |}.


(** ** Constants of the class *)

Definition BLOCK_BASE_HEIGHT : Q := 50.
Definition SHADOW_OFFSET : Q := 4.
Definition MAX_MULTIPLIER : Z := 5.
Definition BLOCK_ACCELERATION : Q := 0.2.
Definition MAX_BLOCK_SPEED : Q := 8.
Definition BLOCK_SNAP_THRESHOLD : Q := 10.
Definition BLOCK_BOUNCE_ELASTICITY : Q := 0.8.
Definition GROUND_OFFSET : Q := 100.
Definition MIN_BLOCKS_FOR_CAMERA : nat := 8.

Definition blockTypes : list BlockConfig :=
  [ {| width := 100; height := 50; color := COLORS standard; speed := 2 |};
    {| width := 150; height := 50; color := COLORS wide; speed := 2.5 |};
    {| width := 80; height := 50; color := COLORS narrow; speed := 3 |};
    {| width := 100; height := 50; color := COLORS fast; speed := 3.5 |} ].

(** The game size of [main.ts], which is the size of the canvas [create] reads. *)
Definition canvas_width : Q := 800.
Definition canvas_height : Q := 600.

(** ** The scene object as the constructor and the field initialisers leave it *)

Definition constructed (storage : Storage) : MainScene :=
  {| currentBlock := None; stackedBlocks := []; blockShadows := []; rectangles := [];
     score := 0; highScore := 0; gameOver := false; isPaused := false;
     moveSpeed := 2; gameWidth := 800; gameHeight := 600; level := 1;
     placementGuide := false; baseY := 600; perfectStreak := 0;
     currentVelocity := 0; lastFrameTime := 0; localStorage := storage;
     pendingSpawns := 0 |}.

(** ** Methods *)

(** [init()]: the assignments under the comment "Reset all game state", then
    the high score is read back; a missing item or a throwing storage leaves
    [highScore] as it was. *)
Definition init (s : MainScene) : MainScene :=
  let s := set_score 0 s in
  let s := set_level 1 s in
  let s := set_gameOver false s in
  let s := set_isPaused false s in
  let s := set_stackedBlocks [] s in
  let s := set_blockShadows [] s in
  let s := set_moveSpeed 2 s in
  match localStorage s with
  | StorageAvailable (Some saved) => set_highScore saved s
  | _ => s
  end.

Definition togglePause (s : MainScene) : MainScene :=
  set_isPaused (negb (isPaused s)) s.

(** [blockTypes[index]]: [undefined] outside the array. *)
Definition blockTypes_at (index : Z) : option BlockConfig :=
  if (index <? 0)%Z then None else blockTypes !! Z.to_nat index.

(** [getCurrentBlockConfig()].  [Math.floor] of the quotient of two integers is
    [Z.div]; JavaScript's [%] takes the sign of the dividend, as [Z.rem] does.
    Reading [speed] of an [undefined] base configuration throws. *)
Definition getCurrentBlockConfig (s : MainScene) : option BlockConfig :=
  let index :=
    Z.min (Z.rem ((level s - 1) / 3) (Z.of_nat (length blockTypes)))
          (Z.of_nat (length blockTypes) - 1) in
  baseConfig ← blockTypes_at index;
  let speedIncrease := Qmin (inject_Z (level s - 1) * 0.1) 2 in
  Some {| width := width baseConfig; height := height baseConfig;
          color := color baseConfig; speed := speed baseConfig + speedIncrease |}.

Definition getBlockType (config : BlockConfig) : BlockType :=
  if Qgtb (width config) 100 then wide
  else if Qltb (width config) 100 then narrow
  else if Qgtb (speed config) 2.5 then fast
  else standard.

(** [createNewBlock()]; [rndX] and [rndDir] are its two [Math.random()] draws.
    The new rectangle is allocated at the end of the store.  The velocity is
    not touched. *)
Definition createNewBlock (rndX rndDir : Q) (s : MainScene) : option MainScene :=
  config ← getCurrentBlockConfig s;
  y ← match last (stackedBlocks s) with
      | None => Some (baseY s)
      | Some lastRef =>
          lastBlock ← rectangles s !! lastRef;
          Some (rect_y lastBlock - BLOCK_BASE_HEIGHT)
      end;
  let margin := width config / 2 in
  let randomX := Between margin (gameWidth s - margin) rndX in
  let shadow :=
    {| rect_x := randomX + SHADOW_OFFSET; rect_y := y + SHADOW_OFFSET;
       rect_width := width config; rect_height := height config; rect_fill := 0 |} in
  let block :=
    {| rect_x := randomX; rect_y := y;
       rect_width := width config; rect_height := height config;
       rect_fill := COLORS (getBlockType config) |} in
  let s := set_currentBlock (Some (length (rectangles s))) s in
  let s := set_rectangles (rectangles s ++ [block]) s in
  let s := set_blockShadows (blockShadows s ++ [shadow]) s in
  let s := set_moveSpeed (speed config * (if Qltb rndDir 0.5 then 1 else -1)) s in
  Some s.

(** [create()]: the canvas size is read, then the first block is made. *)
Definition create (rndX rndDir : Q) (s : MainScene) : option MainScene :=
  let s := set_gameWidth canvas_width s in
  let s := set_gameHeight canvas_height s in
  let s := set_baseY (gameHeight s - GROUND_OFFSET) s in
  createNewBlock rndX rndDir s.

(** [updateHighScore()]: a throwing [setItem] is caught and the save skipped. *)
Definition updateHighScore (s : MainScene) : MainScene :=
  if (score s >? highScore s)%Z then
    let s := set_highScore (score s) s in
    match localStorage s with
    | StorageAvailable _ => set_localStorage (StorageAvailable (Some (highScore s))) s
    | StorageUnavailable => s
    end
  else s.

(** [updateScore()].  No method of the class calls it. *)
Definition updateScore (s : MainScene) : MainScene :=
  let s := set_score (score s + 10) s in
  let s := updateHighScore s in
  if (Z.rem (Z.of_nat (length (stackedBlocks s))) 5 =? 0)%Z
  then set_level (level s + 1) s
  else s.

Definition handlePerfectPlacement (s : MainScene) : MainScene :=
  let s := set_perfectStreak (perfectStreak s + 1) s in
  let multiplier := Z.min (perfectStreak s) MAX_MULTIPLIER in
  let bonusPoints := (50 * multiplier)%Z in
  set_score (score s + bonusPoints) s.

Definition handleGameOver (s : MainScene) : MainScene :=
  set_gameOver true s.

(** The guard shared by [update] and [placeBlock]:
    [this.gameOver || !this.currentBlock || this.isPaused]. *)
Definition idle (s : MainScene) : bool :=
  gameOver s || negb (bool_decide (is_Some (currentBlock s))) || isPaused s.

(** The tail of [placeBlock]: "Add block to stack", then "Create next block".
    With fewer than [MIN_BLOCKS_FOR_CAMERA] blocks stacked the next block is
    created in the same call; otherwise the call is suspended at its [await]
    for 50 ms and [createNewBlock] runs from [delayedSpawn]. *)
Definition landBlock (cur : nat) (rndX rndDir : Q) (s : MainScene) : option MainScene :=
  let s := set_stackedBlocks (stackedBlocks s ++ [cur]) s in
  if (MIN_BLOCKS_FOR_CAMERA <=? length (stackedBlocks s))%nat
  then Some (set_pendingSpawns (S (pendingSpawns s)) s)
  else createNewBlock rndX rndDir s.

(** [placeBlock()].  The early [return] after [handleGameOver] is the branch
    that does not reach [landBlock]. *)
Definition placeBlock (rndX rndDir : Q) (s : MainScene) : option MainScene :=
  if idle s then Some s else
  cur ← currentBlock s;
  config ← getCurrentBlockConfig s;
  match last (stackedBlocks s) with
  | None => landBlock cur rndX rndDir s
  | Some prevRef =>
      prevBlock ← rectangles s !! prevRef;
      curBlock ← rectangles s !! cur;
      let distance := Qabs (rect_x prevBlock - rect_x curBlock) in
      if Qgtb distance (width config * 0.5) then Some (handleGameOver s)
      else
        landBlock cur rndX rndDir
          (if Qltb distance 5 then handlePerfectPlacement s else s)
  end.

(** The continuation of a suspended [placeBlock]. *)
Definition delayedSpawn (rndX rndDir : Q) (s : MainScene) : option MainScene :=
  match pendingSpawns s with
  | O => Some s
  | S n => createNewBlock rndX rndDir (set_pendingSpawns n s)
  end.

(** *** The frame update *)

(** [deltaTime]: 1 on the first frame ([lastFrameTime] is falsy), else the
    elapsed time in units of 16.667 ms. *)
Definition frameDelta (time : Q) (s : MainScene) : Q :=
  if Qeq_bool (lastFrameTime s) 0 then 1
  else (time - lastFrameTime s) / 16.667.

(** [rect.x = f(rect.x)] on the object [ref] names. *)
Definition modify_x (ref : nat) (f : Q → Q) (s : MainScene) : option MainScene :=
  r ← rectangles s !! ref;
  Some (set_rectangles (<[ref := rect_set_x (f (rect_x r)) r]> (rectangles s)) s).

(** "Update current velocity with acceleration" and "Clamp velocity". *)
Definition accelerate (deltaTime : Q) (s : MainScene) : MainScene :=
  let s :=
    set_currentVelocity
      (currentVelocity s + moveSpeed s * BLOCK_ACCELERATION * deltaTime) s in
  set_currentVelocity
    (Clamp (currentVelocity s) (- MAX_BLOCK_SPEED) MAX_BLOCK_SPEED) s.

(** "Move block with interpolated velocity". *)
Definition moveBlock (cur : nat) (deltaTime : Q) (s : MainScene) : option MainScene :=
  modify_x cur (λ x, x + currentVelocity s * deltaTime) s.

(** "Bounce off screen edges with elasticity". *)
Definition bounce (cur : nat) (config : BlockConfig) (s : MainScene) : option MainScene :=
  let margin := width config / 2 in
  b ← rectangles s !! cur;
  if Qgeb (rect_x b) (gameWidth s - margin) then
    s ← modify_x cur (λ _, gameWidth s - margin) s;
    let s := set_currentVelocity (currentVelocity s * - BLOCK_BOUNCE_ELASTICITY) s in
    Some (set_moveSpeed (moveSpeed s * -1) s)
  else if Qle_bool (rect_x b) margin then
    s ← modify_x cur (λ _, margin) s;
    let s := set_currentVelocity (currentVelocity s * - BLOCK_BOUNCE_ELASTICITY) s in
    Some (set_moveSpeed (moveSpeed s * -1) s)
  else Some s.

(** "Update placement guide with interpolation": runs only when the guide
    object exists and the stack is not empty. *)
Definition snapAssist (cur : nat) (deltaTime : Q) (s : MainScene) : option MainScene :=
  if placementGuide s && bool_decide (0 < length (stackedBlocks s))%nat then
    lastRef ← last (stackedBlocks s);
    lastBlock ← rectangles s !! lastRef;
    b ← rectangles s !! cur;
    let distance := Qabs (rect_x lastBlock - rect_x b) in
    if Qltb distance BLOCK_SNAP_THRESHOLD then
      let snapStrength := 1 - distance / BLOCK_SNAP_THRESHOLD in
      modify_x cur (λ x, Linear x (rect_x lastBlock) (snapStrength * 0.1 * deltaTime)) s
    else Some s
  else Some s.

(** "Update shadow position with smooth follow": the newest shadow, if any. *)
Definition followShadow (cur : nat) (s : MainScene) : option MainScene :=
  b ← rectangles s !! cur;
  match last (blockShadows s) with
  | None => Some s
  | Some shadow =>
      let moved := rect_set_x (Linear (rect_x shadow) (rect_x b + SHADOW_OFFSET) 0.5) shadow in
      Some (set_blockShadows (<[pred (length (blockShadows s)) := moved]> (blockShadows s)) s)
  end.

(** [update(time, delta)]. *)
Definition update (time : Q) (s : MainScene) : option MainScene :=
  if idle s then Some s else
  cur ← currentBlock s;
  let deltaTime := frameDelta time s in
  let s := set_lastFrameTime time s in
  let s := accelerate deltaTime s in
  s ← moveBlock cur deltaTime s;
  config ← getCurrentBlockConfig s;
  s ← bounce cur config s;
  s ← snapAssist cur deltaTime s;
  followShadow cur s.

(** ** The game as a sequence of events *)

(** [scene.restart()] runs [init] and [create] on the same scene object;
    Phaser drops the scene's pending timers when it shuts the scene down. *)
Definition restart (rndX rndDir : Q) (s : MainScene) : option MainScene :=
  create rndX rndDir (init (set_pendingSpawns 0%nat s)).

(** The first start: constructor, [init], [create]. *)
Definition start (storage : Storage) (rndX rndDir : Q) : option MainScene :=
  create rndX rndDir (init (constructed storage)).

Inductive Event :=
| Frame (time : Q)
| PlaceCommit (rndX rndDir : Q)
| SpawnTimer (rndX rndDir : Q)
| PauseToggle
| RestartPressed (rndX rndDir : Q).

(** The handlers of [setupInputHandlers] and of the restart button: a
    placement is dropped while paused or over, a restart is offered only at
    game over. *)
Definition step (e : Event) (s : MainScene) : option MainScene :=
  match e with
  | Frame time => update time s
  | PlaceCommit rndX rndDir =>
      if isPaused s || gameOver s then Some s else placeBlock rndX rndDir s
  | SpawnTimer rndX rndDir => delayedSpawn rndX rndDir s
  | PauseToggle => Some (togglePause s)
  | RestartPressed rndX rndDir =>
      if gameOver s then restart rndX rndDir s else Some s
  end.

Fixpoint run (events : list Event) (s : MainScene) : option MainScene :=
  match events with
  | [] => Some s
  | e :: rest => s' ← step e s; run rest s'
  end.

(** The states a game can be in: those [run] reaches from a first [start]. *)
Definition reachable (s : MainScene) : Prop :=
  ∃ storage rndX rndDir events s0,
    start storage rndX rndDir = Some s0 ∧ run events s0 = Some s.

(** [Playing]: neither over nor paused, with an active block. *)
Definition Playing (s : MainScene) : Prop :=
  gameOver s = false ∧ isPaused s = false ∧ is_Some (currentBlock s).

(** ** Reading the judgment off the states

    [placeBlock] returns nothing; what it decided shows in the state it
    leaves.  A miss sets [gameOver] and leaves the stack; a landing pushes the
    active block; a perfect landing is one on which [handlePerfectPlacement]
    ran, which shows in the streak. *)

Definition missed (s s' : MainScene) : Prop :=
  gameOver s' = true ∧ stackedBlocks s' = stackedBlocks s.

Definition landed (cur : nat) (s s' : MainScene) : Prop :=
  gameOver s' = false ∧ stackedBlocks s' = stackedBlocks s ++ [cur].

Definition landedPerfect (cur : nat) (s s' : MainScene) : Prop :=
  landed cur s s' ∧ perfectStreak s' = (perfectStreak s + 1)%Z.

Definition landedOrdinary (cur : nat) (s s' : MainScene) : Prop :=
  landed cur s s' ∧ perfectStreak s' = perfectStreak s.

(** The fields a frame leaves alone. *)
Definition frame_keeps (s s' : MainScene) : Prop :=
  currentBlock s' = currentBlock s ∧ stackedBlocks s' = stackedBlocks s ∧
  score s' = score s ∧ highScore s' = highScore s ∧ level s' = level s ∧
  perfectStreak s' = perfectStreak s ∧ gameOver s' = gameOver s ∧
  isPaused s' = isPaused s ∧ gameWidth s' = gameWidth s ∧
  placementGuide s' = placementGuide s ∧ localStorage s' = localStorage s ∧
  pendingSpawns s' = pendingSpawns s.

(** The fields the creation of a block leaves alone. *)
Definition spawn_keeps (s s' : MainScene) : Prop :=
  score s' = score s ∧ highScore s' = highScore s ∧ level s' = level s ∧
  perfectStreak s' = perfectStreak s ∧ gameOver s' = gameOver s ∧
  isPaused s' = isPaused s ∧ gameWidth s' = gameWidth s ∧
  placementGuide s' = placementGuide s ∧ localStorage s' = localStorage s ∧
  currentVelocity s' = currentVelocity s ∧ lastFrameTime s' = lastFrameTime s.

(** The configuration [getCurrentBlockConfig] computes at level 1. *)
Definition firstLevelConfig : BlockConfig :=
  {| width := 100; height := 50; color := COLORS standard;
     speed := 2 + Qmin (inject_Z 0 * 0.1) 2 |}.

(** What every state of a game satisfies (see [reachable_invariant]). *)
Record Invariant (s : MainScene) : Prop := {
  inv_level : level s = 1%Z;
  inv_guide : placementGuide s = false;
  inv_gameWidth : gameWidth s = canvas_width;
  inv_current :
    ∃ cur b, currentBlock s = Some cur ∧ rectangles s !! cur = Some b
             ∧ rect_width b = 100;
  inv_stack : Forall (λ ref, ref < length (rectangles s))%nat (stackedBlocks s)
}.

(** ** Vocabulary of the specification *)

(** [Math.sign], for "the sign of the nominal move direction". *)
Definition Qsign (q : Q) : Q :=
  if Qgtb q 0 then 1 else if Qltb q 0 then -1 else 0.

(** A commit the Placement Judge of the specification calls Perfect: the
    stack is not empty, the distance to its top block is not above half the
    active block's width, and it is below 5. *)
Definition judgedPerfect (s : MainScene) : bool :=
  match currentBlock s, last (stackedBlocks s) with
  | Some cur, Some topRef =>
      match rectangles s !! cur, rectangles s !! topRef with
      | Some active, Some top =>
          let distance := Qabs (rect_x active - rect_x top) in
          negb (Qgtb distance (rect_width active * 0.5)) && Qltb distance 5
      | _, _ => false
      end
  | _, _ => false
  end.

(** The placement commits of a run that are judged Perfect; a commit made
    while paused or after the game is over is no placement. *)
Fixpoint perfectPlacements (events : list Event) (s : MainScene) : Z :=
  match events with
  | [] => 0
  | e :: rest =>
      (match e with
       | PlaceCommit _ _ =>
           if negb (isPaused s || gameOver s) && judgedPerfect s then 1 else 0
       | _ => 0
       end
       + default 0 (perfectPlacements rest <$> step e s))%Z
  end.

(** The events of one game: everything but a restart. *)
Definition withinGame (e : Event) : bool :=
  match e with
  | RestartPressed _ _ => false
  | _ => true
  end.

(** ** Sample games

    Both random draws are 1/2 unless said otherwise: the block appears at
    x = 400 and its nominal direction is -1. *)

Definition play (events : list Event) : option MainScene :=
  s0 ← start (StorageAvailable None) 0.5 0.5; run events s0.

Definition sceneAfter (events : list Event) : MainScene :=
  default (constructed StorageUnavailable) (play events).

(** The first block in flight over the empty stack. *)
Definition freshGame : MainScene := sceneAfter [].

(** One block stacked at x = 400, the next one in flight at x = 400. *)
Definition stackedOnce : MainScene := sceneAfter [PlaceCommit 0.5 0.5].

(** Two blocks stacked at x = 400, the second one a Perfect placement; the
    third block is in flight at x = 407. *)
Definition offCentre : MainScene :=
  sceneAfter [PlaceCommit 0.5 0.5; PlaceCommit 0.51 0.5].

(** Five commits in a row at x = 400. *)
Definition fiveCommits : list Event :=
  [PlaceCommit 0.5 0.5; PlaceCommit 0.5 0.5; PlaceCommit 0.5 0.5;
   PlaceCommit 0.5 0.5; PlaceCommit 0.5 0.5].

(** Eight commits in a row at x = 400: the eighth call of [placeBlock] is
    suspended, and the block it pushed is still the active block. *)
Definition eightCommits : list Event :=
  fiveCommits ++ [PlaceCommit 0.5 0.5; PlaceCommit 0.5 0.5; PlaceCommit 0.5 0.5].

(** A lost game: a block stacked, two frames of flight, a Perfect placement
    at x = 398.8, then the next block, spawned at x = 50, dropped at once. *)
Definition lostGame : MainScene :=
  sceneAfter [PlaceCommit 0.5 0.5; Frame 1000; Frame 1016.667;
              PlaceCommit 0 0.5; PlaceCommit 0 0].

(** ** The rest of the scene *)



(** The [y] at which [createNewBlock] puts the next block. *)
Definition nextBlockY (s : MainScene) : option Q :=
  match last (stackedBlocks s) with
  | None => Some (baseY s)
  | Some lastRef =>
      lastBlock ← rectangles s !! lastRef;
      Some (rect_y lastBlock - BLOCK_BASE_HEIGHT)
  end.

(** "Only start camera movement after enough blocks": the [targetY] of the
    [cameras.main.pan] call of [createNewBlock] for a block made at [y], or
    [None] when no pan is started. *)
Definition cameraPanTarget (y : Q) (s : MainScene) : option Q :=
  if (MIN_BLOCKS_FOR_CAMERA <=? length (stackedBlocks s))%nat then
    let visibleStackHeight :=
      inject_Z (Z.of_nat (length (stackedBlocks s) + 1)) * BLOCK_BASE_HEIGHT in
    let shouldScroll := Qgtb visibleStackHeight (gameHeight s * 0.6) in
    if shouldScroll then Some (Qmax 0 (y - gameHeight s * 0.3)) else None
  else None.

Definition MIN_UI_SCALE : Q := 0.8.
Definition MAX_UI_SCALE : Q := 1.2.

(** The [uiScale] that [create] computes from the canvas size. *)
Definition uiScaleFor (canvasWidth canvasHeight : Q) : Q :=
  Qmin MAX_UI_SCALE
       (Qmax MIN_UI_SCALE (Qmin (canvasWidth / 800) (canvasHeight / 600))).

(** The test of the [pointerdown] handler, "Ignore input if it's on the pause
    button area". *)
Definition inPauseButtonArea (uiScale gameWidth x y : Q) : bool :=
  Qltb y (100 * uiScale) && Qgtb x (gameWidth - 100 * uiScale).

(** The scene's [pointerdown] handler for a pointer at [(x, y)]. *)
Definition onPointerDown (uiScale x y rndX rndDir : Q) (s : MainScene)
    : option MainScene :=
  if isPaused s || gameOver s then Some s
  else if inPauseButtonArea uiScale (gameWidth s) x y then Some s
  else placeBlock rndX rndDir s.

(** The pause button of [createUI]: a circle of radius [30 * uiScale] around
    [(gameWidth - 60 * uiScale, 60 * uiScale)]; [onPauseButton] is the square
    around that circle. *)
Definition onPauseButton (uiScale gameWidth x y : Q) : Prop :=
  Qabs (x - (gameWidth - 60 * uiScale)) <= 30 * uiScale ∧
  Qabs (y - 60 * uiScale) <= 30 * uiScale.

(** A [Math.random()] result. *)
Definition isDraw (r : Q) : bool := Qle_bool 0 r && Qltb r 1.

(** An event whose random draws are [Math.random()] results. *)
Definition fairEvent (e : Event) : bool :=
  match e with
  | PlaceCommit rndX rndDir | SpawnTimer rndX rndDir | RestartPressed rndX rndDir =>
      isDraw rndX && isDraw rndDir
  | Frame _ | PauseToggle => true
  end.

(** The events that pass over a scene that is paused or over: frames and
    placement commits. *)
Definition passiveEvent (e : Event) : bool :=
  match e with
  | Frame _ | PlaceCommit _ _ => true
  | _ => false
  end.

(** The height of the [n]-th layer of the tower: layers 0 to 7 sit at
    [500 - 50 * n]; from the eighth block on a suspended [placeBlock] can
    stack one block twice, and a layer is only known to be at or above 150. *)
Definition layerY (n : nat) (y : Q) : Prop :=
  ((n <= 7)%nat → y == 500 - 50 * inject_Z (Z.of_nat n)) ∧
  ((7 <= n)%nat → y <= 150).

(** What every state of a game satisfies besides [Invariant]. *)
Record Bounds (s : MainScene) : Prop := {
  bnd_velocity : - MAX_BLOCK_SPEED <= currentVelocity s <= MAX_BLOCK_SPEED;
  bnd_streak : (0 <= perfectStreak s)%Z;
  bnd_score : (0 <= score s)%Z;
  bnd_gameHeight : gameHeight s = canvas_height;
  bnd_baseY : baseY s == 500;
  bnd_stackY :
    ∀ i ref b, stackedBlocks s !! i = Some ref → rectangles s !! ref = Some b →
      layerY i (rect_y b);
  bnd_currentY :
    ∀ cur b, currentBlock s = Some cur → rectangles s !! cur = Some b →
      layerY (length (stackedBlocks s)) (rect_y b);
  bnd_loaded :
    ∀ h, localStorage s = StorageAvailable (Some h) → highScore s = h
}.

(** Every rectangle of the store lies within the play area. *)
Definition insidePlayArea (s : MainScene) : Prop :=
  Forall (λ b, 50 <= rect_x b <= 750) (rectangles s).

(** A game all of whose random draws are [Math.random()] results. *)
Definition reachableFair (s : MainScene) : Prop :=
  ∃ storage rndX rndDir events s0,
    isDraw rndX = true ∧ isDraw rndDir = true ∧
    start storage rndX rndDir = Some s0 ∧
    forallb fairEvent events = true ∧ run events s0 = Some s.

(** The scene [s] with a placement-guide object, which no statement of the
    source creates: the state in which the guarded part of [update] runs. *)
Definition withPlacementGuide (s : MainScene) : MainScene :=
  {| currentBlock := currentBlock s; stackedBlocks := stackedBlocks s;
     blockShadows := blockShadows s; rectangles := rectangles s; score := score s;
     highScore := highScore s; gameOver := gameOver s; isPaused := isPaused s;
     moveSpeed := moveSpeed s; gameWidth := gameWidth s; gameHeight := gameHeight s;
     level := level s; placementGuide := true; baseY := baseY s;
     perfectStreak := perfectStreak s; currentVelocity := currentVelocity s;
     lastFrameTime := lastFrameTime s; localStorage := localStorage s;
     pendingSpawns := pendingSpawns s |}.

(** * Proofs *)

Ltac scene_simpl :=
  cbn [currentBlock stackedBlocks blockShadows rectangles score highScore gameOver
       isPaused moveSpeed gameWidth gameHeight level placementGuide baseY
       perfectStreak currentVelocity lastFrameTime localStorage pendingSpawns
       set_currentBlock set_stackedBlocks set_blockShadows set_rectangles set_score
       set_highScore set_gameOver set_isPaused set_moveSpeed set_gameWidth
       set_gameHeight set_level set_baseY set_perfectStreak set_currentVelocity
       set_lastFrameTime set_localStorage set_pendingSpawns
       rect_x rect_y rect_width rect_height rect_fill rect_set_x
       width height color speed] in *.

(** ** Comparisons and clamping *)

Lemma Qltb_lt (x y : Q) : Qltb x y = true ↔ x < y.
Proof.
  unfold Qltb. rewrite negb_true_iff, <- not_true_iff_false, Qle_bool_iff.
  split; [apply Qnot_le_lt | apply Qlt_not_le].
Qed.

Lemma Qltb_ge (x y : Q) : Qltb x y = false ↔ y <= x.
Proof. unfold Qltb. rewrite negb_false_iff. apply Qle_bool_iff. Qed.

Lemma Qgtb_gt (x y : Q) : Qgtb x y = true ↔ y < x.
Proof. apply Qltb_lt. Qed.

Lemma Qgtb_le (x y : Q) : Qgtb x y = false ↔ x <= y.
Proof. apply Qltb_ge. Qed.

Lemma Qgeb_ge (x y : Q) : Qgeb x y = true ↔ y <= x.
Proof. apply Qle_bool_iff. Qed.

Lemma Qgeb_lt (x y : Q) : Qgeb x y = false ↔ x < y.
Proof.
  unfold Qgeb. rewrite <- not_true_iff_false, Qle_bool_iff.
  split; [apply Qnot_le_lt | apply Qlt_not_le].
Qed.

Lemma Qle_bool_gt (x y : Q) : Qle_bool x y = false ↔ y < x.
Proof.
  rewrite <- not_true_iff_false, Qle_bool_iff.
  split; [apply Qnot_le_lt | apply Qlt_not_le].
Qed.

Lemma Clamp_bounds (value lo hi : Q) :
  lo <= hi → lo <= Clamp value lo hi <= hi.
Proof.
  intros Hle. unfold Clamp. split.
  - apply Q.le_max_l.
  - apply Q.max_lub; [exact Hle | apply Q.le_min_l].
Qed.

(** ** The block configuration *)

Lemma getCurrentBlockConfig_level_1 (s : MainScene) :
  level s = 1%Z → getCurrentBlockConfig s = Some firstLevelConfig.
Proof. intros Hl. unfold getCurrentBlockConfig. rewrite Hl. reflexivity. Qed.

(** [getCurrentBlockConfig] reads nothing but [level]. *)
Lemma getCurrentBlockConfig_ext (s t : MainScene) :
  level s = level t → getCurrentBlockConfig s = getCurrentBlockConfig t.
Proof. intros Hl. unfold getCurrentBlockConfig. now rewrite Hl. Qed.

(** From level 1 upwards the index stays inside [blockTypes]: the method
    does not throw. *)
Lemma getCurrentBlockConfig_total (s : MainScene) :
  (1 <= level s)%Z → is_Some (getCurrentBlockConfig s).
Proof.
  intros Hl. unfold getCurrentBlockConfig, blockTypes_at.
  set (q := ((level s - 1) / 3)%Z).
  assert (0 <= q)%Z as Hq by (apply Z.div_pos; lia).
  assert (0 <= Z.rem q 4 < 4)%Z as Hr by (apply Z.rem_bound_pos; lia).
  change (Z.of_nat (length blockTypes)) with 4%Z.
  replace (Z.min (Z.rem q 4) (4 - 1)) with (Z.rem q 4) by lia.
  destruct (Z.ltb_spec (Z.rem q 4) 0) as [?|_]; [lia|].
  destruct (blockTypes !! Z.to_nat (Z.rem q 4)) as [cfg|] eqn:Hlook.
  - simpl. eauto.
  - apply lookup_ge_None in Hlook. simpl in Hlook. lia.
Qed.

(** ** Spawning *)

Lemma createNewBlock_inv (rndX rndDir : Q) (s s' : MainScene) :
  createNewBlock rndX rndDir s = Some s' →
  ∃ config block shadow,
    getCurrentBlockConfig s = Some config ∧ rect_width block = width config ∧
    s' = set_moveSpeed (speed config * (if Qltb rndDir 0.5 then 1 else -1))
           (set_blockShadows (blockShadows s ++ [shadow])
              (set_rectangles (rectangles s ++ [block])
                 (set_currentBlock (Some (length (rectangles s))) s))).
Proof.
  unfold createNewBlock. intros H.
  destruct (getCurrentBlockConfig s) as [config|]; [|discriminate].
  cbn [mbind option_bind] in H.
  match type of H with (?m ≫= _) = _ => destruct m as [y|] end; [|discriminate].
  injection H as <-. eexists config, _, _. split; [reflexivity|].
  split; [|reflexivity]. reflexivity.
Qed.

Lemma createNewBlock_total (rndX rndDir : Q) (s : MainScene) :
  is_Some (getCurrentBlockConfig s) →
  Forall (λ ref, ref < length (rectangles s))%nat (stackedBlocks s) →
  is_Some (createNewBlock rndX rndDir s).
Proof.
  intros [config Hc] Hstack. unfold createNewBlock. rewrite Hc.
  cbn [mbind option_bind].
  destruct (last (stackedBlocks s)) as [lastRef|] eqn:Hlast; [|cbn; eauto].
  apply last_Some in Hlast as [front Hfront]. rewrite Hfront in Hstack.
  apply Forall_app in Hstack as [_ Hlt%Forall_inv].
  apply lookup_lt_is_Some_2 in Hlt as [lastBlock ->]. cbn. eauto.
Qed.

Lemma createNewBlock_invariant (rndX rndDir : Q) (s s' : MainScene) :
  level s = 1%Z → placementGuide s = false → gameWidth s = canvas_width →
  Forall (λ ref, ref < length (rectangles s))%nat (stackedBlocks s) →
  createNewBlock rndX rndDir s = Some s' → Invariant s'.
Proof.
  intros Hl Hg Hw Hstack Hnew.
  apply createNewBlock_inv in Hnew as (config & block & shadow & Hc & Hbw & ->).
  rewrite (getCurrentBlockConfig_level_1 s Hl) in Hc. injection Hc as <-.
  split; scene_simpl; try assumption.
  - exists (length (rectangles s)), block. split; [reflexivity|].
    split; [|exact Hbw]. apply list_lookup_middle. reflexivity.
  - eapply Forall_impl; [exact Hstack|]. cbn. intros ref Href.
    rewrite length_app. cbn. lia.
Qed.

(** ** The frame update *)

Lemma Playing_not_idle (s : MainScene) : Playing s ↔ idle s = false.
Proof.
  unfold Playing, idle. split.
  - intros (-> & -> & Hcur). now rewrite bool_decide_eq_true_2.
  - intros H. apply orb_false_elim in H as [H Hp].
    apply orb_false_elim in H as [Ho Hc].
    apply negb_false_iff, bool_decide_eq_true_1 in Hc. auto.
Qed.

Lemma modify_x_eq (ref : nat) (f : Q → Q) (s : MainScene) (r : Rectangle) :
  rectangles s !! ref = Some r →
  modify_x ref f s
  = Some (set_rectangles (<[ref := rect_set_x (f (rect_x r)) r]> (rectangles s)) s).
Proof. intros H. unfold modify_x. now rewrite H. Qed.

Lemma lookup_modified (l : list Rectangle) (ref : nat) (r r' : Rectangle) :
  l !! ref = Some r → <[ref := r']> l !! ref = Some r'.
Proof. intros H. apply list_lookup_insert_eq. eapply lookup_lt_Some, H. Qed.

Lemma snapAssist_without_guide (cur : nat) (deltaTime : Q) (s : MainScene) :
  placementGuide s = false → snapAssist cur deltaTime s = Some s.
Proof. intros H. unfold snapAssist. now rewrite H. Qed.

(** With a guide object the snap is the interpolation of the source. *)
Lemma snapAssist_with_guide (cur topRef : nat) (deltaTime : Q) (s : MainScene)
    (b top : Rectangle) :
  placementGuide s = true →
  last (stackedBlocks s) = Some topRef → rectangles s !! topRef = Some top →
  rectangles s !! cur = Some b →
  let distance := Qabs (rect_x top - rect_x b) in
  distance < BLOCK_SNAP_THRESHOLD →
  ∃ s' b', snapAssist cur deltaTime s = Some s' ∧ rectangles s' !! cur = Some b' ∧
    rect_x b' = Linear (rect_x b) (rect_x top)
                  ((1 - distance / BLOCK_SNAP_THRESHOLD) * 0.1 * deltaTime).
Proof.
  intros Hg Hlast Htop Hb distance Hd. unfold snapAssist.
  rewrite Hg, Hlast. cbn [andb mbind option_bind].
  rewrite bool_decide_eq_true_2.
  2:{ apply last_Some in Hlast as [front ->]. rewrite length_app. cbn. lia. }
  rewrite Htop, Hb. cbn [mbind option_bind].
  apply Qltb_lt in Hd. fold distance. rewrite Hd.
  rewrite (modify_x_eq _ _ _ _ Hb). eexists _, _. split; [reflexivity|].
  scene_simpl. split; [eapply lookup_modified, Hb|]. reflexivity.
Qed.

Lemma lookup_modified_is_Some (l : list Rectangle) (ref : nat) (r' : Rectangle) :
  is_Some (l !! ref) → is_Some (<[ref := r']> l !! ref).
Proof. intros [r H]. exists r'. eapply lookup_modified, H. Qed.

Lemma followShadow_eq (cur : nat) (s : MainScene) :
  is_Some (rectangles s !! cur) →
  ∃ shadows, followShadow cur s = Some (set_blockShadows shadows s).
Proof.
  intros [b Hb]. unfold followShadow. rewrite Hb. cbn [mbind option_bind].
  destruct (last (blockShadows s)) as [shadow|].
  - eexists. reflexivity.
  - exists (blockShadows s). now destruct s.
Qed.

Lemma update_unfold (time : Q) (s : MainScene) (cur : nat) :
  Playing s → currentBlock s = Some cur →
  update time s =
    (s1 ← moveBlock cur (frameDelta time s)
            (accelerate (frameDelta time s) (set_lastFrameTime time s));
     config ← getCurrentBlockConfig s1;
     s2 ← bounce cur config s1;
     s3 ← snapAssist cur (frameDelta time s) s2;
     followShadow cur s3).
Proof.
  intros Hplay Hcur. apply Playing_not_idle in Hplay.
  unfold update. rewrite Hplay, Hcur. reflexivity.
Qed.

Lemma bounce_eq (cur : nat) (config : BlockConfig) (s : MainScene) (b : Rectangle) :
  rectangles s !! cur = Some b →
  ∃ s' x',
    bounce cur config s = Some s' ∧
    rectangles s' = <[cur := rect_set_x x' b]> (rectangles s) ∧
    frame_keeps s s' ∧ blockShadows s' = blockShadows s ∧
    if Qgeb (rect_x b) (gameWidth s - width config / 2) then
      x' = gameWidth s - width config / 2 ∧
      currentVelocity s' = currentVelocity s * - BLOCK_BOUNCE_ELASTICITY ∧
      moveSpeed s' = moveSpeed s * -1
    else if Qle_bool (rect_x b) (width config / 2) then
      x' = width config / 2 ∧
      currentVelocity s' = currentVelocity s * - BLOCK_BOUNCE_ELASTICITY ∧
      moveSpeed s' = moveSpeed s * -1
    else x' = rect_x b ∧ currentVelocity s' = currentVelocity s
         ∧ moveSpeed s' = moveSpeed s.
Proof.
  intros Hb. unfold bounce. rewrite Hb. cbn [mbind option_bind].
  destruct (Qgeb (rect_x b) (gameWidth s - width config / 2));
    [|destruct (Qle_bool (rect_x b) (width config / 2))].
  - rewrite (modify_x_eq _ _ _ _ Hb). cbn [mbind option_bind].
    eexists _, _. split; [reflexivity|]. scene_simpl.
    split; [reflexivity|]. repeat split.
  - rewrite (modify_x_eq _ _ _ _ Hb). cbn [mbind option_bind].
    eexists _, _. split; [reflexivity|]. scene_simpl.
    split; [reflexivity|]. repeat split.
  - exists s, (rect_x b). split; [reflexivity|].
    split; [|repeat split].
    symmetry. apply list_insert_id. rewrite Hb. now destruct b.
Qed.
Lemma frame_keeps_trans (s t u : MainScene) :
  frame_keeps s t → frame_keeps t u → frame_keeps s u.
Proof.
  unfold frame_keeps.
  intros (?&?&?&?&?&?&?&?&?&?&?&?) (?&?&?&?&?&?&?&?&?&?&?&?).
  repeat split; congruence.
Qed.

(** The frame up to and including the move. *)
Lemma update_move (time : Q) (s : MainScene) (cur : nat) (b : Rectangle) :
  rectangles s !! cur = Some b →
  ∃ s1,
    moveBlock cur (frameDelta time s)
      (accelerate (frameDelta time s) (set_lastFrameTime time s)) = Some s1 ∧
    frame_keeps s s1 ∧ blockShadows s1 = blockShadows s ∧
    moveSpeed s1 = moveSpeed s ∧
    currentVelocity s1
    = Clamp (currentVelocity s + moveSpeed s * BLOCK_ACCELERATION * frameDelta time s)
        (- MAX_BLOCK_SPEED) MAX_BLOCK_SPEED ∧
    rectangles s1
    = <[cur := rect_set_x (rect_x b + currentVelocity s1 * frameDelta time s) b]>
        (rectangles s).
Proof.
  intros Hb. unfold moveBlock.
  erewrite modify_x_eq by exact Hb.
  eexists. split; [reflexivity|]. repeat split.
Qed.

Lemma update_playing (time : Q) (s : MainScene) (cur : nat) (b : Rectangle)
    (config : BlockConfig) (deltaTime v x margin : Q) :
  Playing s → currentBlock s = Some cur → rectangles s !! cur = Some b →
  getCurrentBlockConfig s = Some config → placementGuide s = false →
  deltaTime = frameDelta time s →
  v = Clamp (currentVelocity s + moveSpeed s * BLOCK_ACCELERATION * deltaTime)
        (- MAX_BLOCK_SPEED) MAX_BLOCK_SPEED →
  x = rect_x b + v * deltaTime →
  margin = width config / 2 →
  ∃ s' x',
    update time s = Some s' ∧ frame_keeps s s' ∧
    rectangles s' = <[cur := rect_set_x x' b]> (rectangles s) ∧
    if Qgeb x (gameWidth s - margin) then
      x' = gameWidth s - margin ∧
      currentVelocity s' = v * - BLOCK_BOUNCE_ELASTICITY ∧
      moveSpeed s' = moveSpeed s * -1
    else if Qle_bool x margin then
      x' = margin ∧
      currentVelocity s' = v * - BLOCK_BOUNCE_ELASTICITY ∧
      moveSpeed s' = moveSpeed s * -1
    else x' = x ∧ currentVelocity s' = v ∧ moveSpeed s' = moveSpeed s.
Proof.
  intros Hplay Hcur Hb Hconfig Hguide -> -> -> ->.
  rewrite (update_unfold _ _ _ Hplay Hcur).
  destruct (update_move time s cur b Hb) as (s1 & -> & Hk1 & Hsh1 & Hms1 & Hv1 & Hr1).
  cbn [mbind option_bind].
  rewrite (getCurrentBlockConfig_ext s1 s), Hconfig by apply Hk1.
  cbn [mbind option_bind].
  assert (rectangles s1 !! cur
          = Some (rect_set_x (rect_x b + currentVelocity s1 * frameDelta time s) b))
    as Hb1 by (rewrite Hr1; eapply lookup_modified, Hb).
  destruct (bounce_eq cur config s1 _ Hb1)
    as (s2 & x' & -> & Hr2 & Hk2 & Hsh2 & Hcase).
  cbn [mbind option_bind].
  pose proof (frame_keeps_trans _ _ _ Hk1 Hk2) as Hk.
  rewrite snapAssist_without_guide
    by (destruct Hk as (_&_&_&_&_&_&_&_&_&Hg&_); now rewrite Hg).
  cbn [mbind option_bind].
  destruct (followShadow_eq cur s2) as [shadows ->].
  { rewrite Hr2. eexists. eapply lookup_modified, Hb1. }
  exists (set_blockShadows shadows s2), x'.
  split; [reflexivity|]. split; [exact Hk|].
  split.
  { change (rectangles (set_blockShadows shadows s2)) with (rectangles s2).
    rewrite Hr2, Hr1, list_insert_insert_eq. reflexivity. }
  change (currentVelocity (set_blockShadows shadows s2)) with (currentVelocity s2).
  change (moveSpeed (set_blockShadows shadows s2)) with (moveSpeed s2).
  change (rect_x (rect_set_x (rect_x b + currentVelocity s1 * frameDelta time s) b))
    with (rect_x b + currentVelocity s1 * frameDelta time s) in Hcase.
  destruct Hk1 as (_&_&_&_&_&_&_&_&Hw1&_).
  rewrite Hw1, Hms1, Hv1 in Hcase. exact Hcase.
Qed.

(** ** Placement *)

Lemma createNewBlock_keeps (rndX rndDir : Q) (s s' : MainScene) :
  createNewBlock rndX rndDir s = Some s' →
  spawn_keeps s s' ∧ stackedBlocks s' = stackedBlocks s
  ∧ pendingSpawns s' = pendingSpawns s.
Proof.
  intros H. apply createNewBlock_inv in H as (config & block & shadow & _ & _ & ->).
  repeat split.
Qed.

Lemma landBlock_keeps (cur : nat) (rndX rndDir : Q) (s s' : MainScene) :
  landBlock cur rndX rndDir s = Some s' →
  spawn_keeps s s' ∧ stackedBlocks s' = stackedBlocks s ++ [cur].
Proof.
  unfold landBlock. scene_simpl.
  destruct (MIN_BLOCKS_FOR_CAMERA <=? length (stackedBlocks s ++ [cur]))%nat.
  - intros [= <-]. repeat split.
  - intros H. apply createNewBlock_keeps in H as (Hk & Hst & _).
    split; [exact Hk | exact Hst].
Qed.

Lemma landBlock_total (cur : nat) (rndX rndDir : Q) (s : MainScene) :
  is_Some (getCurrentBlockConfig s) →
  Forall (λ ref, ref < length (rectangles s))%nat (stackedBlocks s) →
  (cur < length (rectangles s))%nat →
  is_Some (landBlock cur rndX rndDir s).
Proof.
  intros Hc Hstack Hcur. unfold landBlock. scene_simpl.
  destruct (MIN_BLOCKS_FOR_CAMERA <=? length (stackedBlocks s ++ [cur]))%nat;
    [eauto|].
  apply createNewBlock_total.
  - erewrite getCurrentBlockConfig_ext; [exact Hc | reflexivity].
  - scene_simpl. apply Forall_app. split; [exact Hstack|].
    apply Forall_singleton. exact Hcur.
Qed.

Lemma placeBlock_judged (rndX rndDir : Q) (s : MainScene) (cur : nat)
    (active : Rectangle) (config : BlockConfig) :
  Playing s → currentBlock s = Some cur → rectangles s !! cur = Some active →
  getCurrentBlockConfig s = Some config →
  Forall (λ ref, ref < length (rectangles s))%nat (stackedBlocks s) →
  ∃ s', placeBlock rndX rndDir s = Some s' ∧
    match last (stackedBlocks s) with
    | None => landBlock cur rndX rndDir s = Some s'
    | Some topRef =>
        ∃ top, rectangles s !! topRef = Some top ∧
          if Qgtb (Qabs (rect_x top - rect_x active)) (width config * 0.5)
          then s' = handleGameOver s
          else if Qltb (Qabs (rect_x top - rect_x active)) 5
               then landBlock cur rndX rndDir (handlePerfectPlacement s) = Some s'
               else landBlock cur rndX rndDir s = Some s'
    end.
Proof.
  intros Hplay Hcur Hactive Hconfig Hstack.
  apply Playing_not_idle in Hplay. unfold placeBlock.
  rewrite Hplay, Hcur, Hconfig. cbn [mbind option_bind].
  assert (cur < length (rectangles s))%nat as Hlt
    by (eapply lookup_lt_Some, Hactive).
  destruct (last (stackedBlocks s)) as [topRef|] eqn:Hlast.
  - assert (is_Some (rectangles s !! topRef)) as [top Htop].
    { apply last_Some in Hlast as [front Hfront]. rewrite Hfront in Hstack.
      apply Forall_app in Hstack as [_ Hin%Forall_inv].
      now apply lookup_lt_is_Some_2. }
    rewrite Htop, Hactive. cbn [mbind option_bind].
    destruct (Qgtb (Qabs (rect_x top - rect_x active)) (width config * 0.5))
      eqn:Hmiss.
    + eexists. split; [reflexivity|]. exists top. split; [reflexivity|].
      now rewrite Hmiss.
    + destruct (Qltb (Qabs (rect_x top - rect_x active)) 5) eqn:Hperfect.
      * destruct (landBlock_total cur rndX rndDir (handlePerfectPlacement s))
          as [s' Hs'];
          [erewrite getCurrentBlockConfig_ext; [rewrite Hconfig; eauto | reflexivity]
          | exact Hstack | exact Hlt |].
        exists s'. split; [exact Hs'|]. exists top. split; [reflexivity|].
        now rewrite Hmiss, Hperfect.
      * destruct (landBlock_total cur rndX rndDir s)
          as [s' Hs']; [rewrite Hconfig; eauto | exact Hstack | exact Hlt |].
        exists s'. split; [exact Hs'|]. exists top. split; [reflexivity|].
        now rewrite Hmiss, Hperfect.
  - destruct (landBlock_total cur rndX rndDir s)
      as [s' Hs']; [rewrite Hconfig; eauto | exact Hstack | exact Hlt |].
    exists s'. split; exact Hs'.
Qed.

(** ** The invariant of a game *)

Lemma Invariant_config (s : MainScene) :
  Invariant s → getCurrentBlockConfig s = Some firstLevelConfig.
Proof. intros Hinv. apply getCurrentBlockConfig_level_1, Hinv. Qed.

Lemma update_invariant (time : Q) (s s' : MainScene) :
  Invariant s → update time s = Some s' → Invariant s'.
Proof.
  intros Hinv Hup. destruct (idle s) eqn:Hidle.
  { unfold update in Hup. rewrite Hidle in Hup. now injection Hup as <-. }
  apply Playing_not_idle in Hidle.
  destruct (inv_current s Hinv) as (cur & b & Hcur & Hb & Hw).
  destruct (update_playing time s cur b firstLevelConfig _ _ _ _ Hidle Hcur Hb
              (Invariant_config s Hinv) (inv_guide s Hinv)
              eq_refl eq_refl eq_refl eq_refl)
    as (t & x' & Ht & Hkeep & Hrect & _).
  rewrite Hup in Ht. injection Ht as <-.
  destruct Hkeep as (Hc & Hst & _ & _ & Hl & _ & _ & _ & Hgw & Hg & _).
  split.
  - rewrite Hl. apply Hinv.
  - rewrite Hg. apply Hinv.
  - rewrite Hgw. apply Hinv.
  - exists cur, (rect_set_x x' b). rewrite Hc, Hrect.
    split; [exact Hcur|]. split; [eapply lookup_modified, Hb | exact Hw].
  - rewrite Hst, Hrect, length_insert. apply Hinv.
Qed.

Lemma landBlock_invariant (cur : nat) (rndX rndDir : Q) (s s' : MainScene) :
  Invariant s → currentBlock s = Some cur →
  landBlock cur rndX rndDir s = Some s' → Invariant s'.
Proof.
  intros Hinv Hcur. unfold landBlock. scene_simpl.
  destruct (inv_current s Hinv) as (cur' & b & Hcur' & Hb & Hw).
  rewrite Hcur in Hcur'. injection Hcur' as <-.
  assert (Forall (λ ref, ref < length (rectangles s))%nat (stackedBlocks s ++ [cur]))
    as Hstack.
  { apply Forall_app. split; [apply Hinv|]. apply Forall_singleton.
    eapply lookup_lt_Some, Hb. }
  destruct (MIN_BLOCKS_FOR_CAMERA <=? length (stackedBlocks s ++ [cur]))%nat.
  - intros [= <-]. split; scene_simpl.
    + apply Hinv.
    + apply Hinv.
    + apply Hinv.
    + now exists cur, b.
    + exact Hstack.
  - apply createNewBlock_invariant; scene_simpl; try apply Hinv. exact Hstack.
Qed.

Lemma handlePerfectPlacement_invariant (s : MainScene) :
  Invariant s → Invariant (handlePerfectPlacement s).
Proof. intros Hinv. split; apply Hinv. Qed.

Lemma placeBlock_invariant (rndX rndDir : Q) (s s' : MainScene) :
  Invariant s → placeBlock rndX rndDir s = Some s' → Invariant s'.
Proof.
  intros Hinv Hplace. destruct (idle s) eqn:Hidle.
  { unfold placeBlock in Hplace. rewrite Hidle in Hplace. now injection Hplace as <-. }
  apply Playing_not_idle in Hidle.
  destruct (inv_current s Hinv) as (cur & b & Hcur & Hb & Hw).
  destruct (placeBlock_judged rndX rndDir s cur b firstLevelConfig Hidle Hcur Hb
              (Invariant_config s Hinv) (inv_stack s Hinv)) as (t & Ht & Hcase).
  rewrite Hplace in Ht. injection Ht as <-.
  destruct (last (stackedBlocks s)) as [topRef|].
  - destruct Hcase as (top & _ & Hcase).
    destruct (Qgtb _ _).
    + subst s'. split; apply Hinv.
    + destruct (Qltb _ _).
      * eapply landBlock_invariant, Hcase;
          [apply handlePerfectPlacement_invariant, Hinv | exact Hcur].
      * eapply landBlock_invariant, Hcase; [exact Hinv | exact Hcur].
  - eapply landBlock_invariant, Hcase; [exact Hinv | exact Hcur].
Qed.

Lemma delayedSpawn_invariant (rndX rndDir : Q) (s s' : MainScene) :
  Invariant s → delayedSpawn rndX rndDir s = Some s' → Invariant s'.
Proof.
  intros Hinv. unfold delayedSpawn. destruct (pendingSpawns s) as [|n].
  - now intros [= <-].
  - apply createNewBlock_invariant; apply Hinv.
Qed.

Lemma create_init_invariant (rndX rndDir : Q) (s s' : MainScene) :
  placementGuide s = false → create rndX rndDir (init s) = Some s' → Invariant s'.
Proof.
  intros Hguide. unfold create.
  apply createNewBlock_invariant; unfold init; scene_simpl;
    destruct (localStorage s) as [|[saved|]]; scene_simpl;
    first [reflexivity | exact Hguide | apply Forall_nil_2].
Qed.

Lemma step_invariant (e : Event) (s s' : MainScene) :
  Invariant s → step e s = Some s' → Invariant s'.
Proof.
  intros Hinv. destruct e as [time|rndX rndDir|rndX rndDir| |rndX rndDir]; cbn [step].
  - apply update_invariant, Hinv.
  - destruct (isPaused s || gameOver s).
    + now intros [= <-].
    + apply placeBlock_invariant, Hinv.
  - apply delayedSpawn_invariant, Hinv.
  - intros [= <-]. split; apply Hinv.
  - destruct (gameOver s).
    + apply create_init_invariant. apply Hinv.
    + now intros [= <-].
Qed.

Lemma run_invariant (events : list Event) (s s' : MainScene) :
  Invariant s → run events s = Some s' → Invariant s'.
Proof.
  revert s. induction events as [|e rest IH]; intros s Hinv; cbn [run].
  - now intros [= <-].
  - destruct (step e s) as [t|] eqn:Hstep; [|discriminate].
    cbn [mbind option_bind]. apply IH. eapply step_invariant; eauto.
Qed.

Lemma start_invariant (storage : Storage) (rndX rndDir : Q) (s0 : MainScene) :
  start storage rndX rndDir = Some s0 → Invariant s0.
Proof.
  unfold start. apply create_init_invariant. reflexivity.
Qed.

Lemma reachable_invariant (s : MainScene) : reachable s → Invariant s.
Proof.
  intros (storage & rndX & rndDir & events & s0 & Hstart & Hrun).
  eapply run_invariant, Hrun. eapply start_invariant, Hstart.
Qed.

(** ** Facts about every game *)

Lemma Invariant_active (s : MainScene) (cur : nat) (active : Rectangle) :
  Invariant s → currentBlock s = Some cur → rectangles s !! cur = Some active →
  rect_width active = width firstLevelConfig.
Proof.
  intros Hreach Hcur Hactive.
  destruct (inv_current s Hreach) as (cur' & b & Hcur' & Hb & Hw).
  rewrite Hcur in Hcur'. injection Hcur' as <-.
  rewrite Hactive in Hb. injection Hb as <-. exact Hw.
Qed.

(** What [placeBlock] does in a game, by the distance the source computes. *)
Lemma placeBlock_in_game (rndX rndDir : Q) (s : MainScene) (cur : nat)
    (active : Rectangle) :
  Invariant s → Playing s →
  currentBlock s = Some cur → rectangles s !! cur = Some active →
  ∃ s', placeBlock rndX rndDir s = Some s' ∧
    match last (stackedBlocks s) with
    | None => landBlock cur rndX rndDir s = Some s'
    | Some topRef =>
        ∃ top, rectangles s !! topRef = Some top ∧
          if Qgtb (Qabs (rect_x active - rect_x top)) (rect_width active * 0.5)
          then s' = handleGameOver s
          else if Qltb (Qabs (rect_x active - rect_x top)) 5
               then landBlock cur rndX rndDir (handlePerfectPlacement s) = Some s'
               else landBlock cur rndX rndDir s = Some s'
    end.
Proof.
  intros Hreach Hplay Hcur Hactive.
  pose proof (Invariant_active s cur active Hreach Hcur Hactive) as Hw.
  destruct (placeBlock_judged rndX rndDir s cur active firstLevelConfig Hplay Hcur
              Hactive (Invariant_config s Hreach) (inv_stack s Hreach))
    as (s' & Hs' & Hcase).
  exists s'. split; [exact Hs'|].
  destruct (last (stackedBlocks s)) as [topRef|]; [|exact Hcase].
  destruct Hcase as (top & Htop & Hcase). exists top. split; [exact Htop|].
  rewrite (Qabs_Qminus (rect_x active) (rect_x top)), Hw. exact Hcase.
Qed.

Lemma velocity_after_bounce (v : Q) :
  - MAX_BLOCK_SPEED <= v <= MAX_BLOCK_SPEED →
  - MAX_BLOCK_SPEED <= v * - BLOCK_BOUNCE_ELASTICITY <= MAX_BLOCK_SPEED.
Proof. unfold MAX_BLOCK_SPEED, BLOCK_BOUNCE_ELASTICITY. intros [Hlo Hhi]. lra. Qed.

Lemma frame_keeps_refl (s : MainScene) : frame_keeps s s.
Proof. repeat split. Qed.

Lemma update_keeps (time : Q) (s s' : MainScene) :
  Invariant s → update time s = Some s' → frame_keeps s s'.
Proof.
  intros Hinv Hup. destruct (idle s) eqn:Hidle.
  { unfold update in Hup. rewrite Hidle in Hup. injection Hup as <-.
    apply frame_keeps_refl. }
  apply Playing_not_idle in Hidle.
  destruct (inv_current s Hinv) as (cur & b & Hcur & Hb & Hw).
  destruct (update_playing time s cur b firstLevelConfig _ _ _ _ Hidle Hcur Hb
              (Invariant_config s Hinv) (inv_guide s Hinv)
              eq_refl eq_refl eq_refl eq_refl)
    as (t & x' & Ht & Hkeep & _).
  rewrite Hup in Ht. injection Ht as <-. exact Hkeep.
Qed.

(** The streak after one event of a game. *)
Lemma step_perfectStreak (e : Event) (s s' : MainScene) :
  Invariant s → withinGame e = true → step e s = Some s' →
  perfectStreak s'
  = (perfectStreak s
     + match e with
       | PlaceCommit _ _ =>
           if negb (isPaused s || gameOver s) && judgedPerfect s then 1 else 0
       | _ => 0
       end)%Z.
Proof.
  intros Hinv Hgame Hstep.
  destruct e as [time|rndX rndDir|rndX rndDir| |rndX rndDir]; cbn [step] in Hstep.
  - apply (update_keeps _ _ _ Hinv) in Hstep.
    destruct Hstep as (_ & _ & _ & _ & _ & -> & _). lia.
  - destruct (isPaused s) eqn:Hpaused; cbn [orb] in *.
    { injection Hstep as <-. cbn. lia. }
    destruct (gameOver s) eqn:Hover.
    { injection Hstep as <-. cbn. lia. }
    destruct (inv_current s Hinv) as (cur & active & Hcur & Hactive & Hw).
    assert (Playing s) as Hplay by (split; [|split]; [assumption..|rewrite Hcur; eauto]).
    destruct (placeBlock_in_game rndX rndDir s cur active Hinv Hplay Hcur Hactive)
      as (t & Ht & Hcase).
    rewrite Hstep in Ht. injection Ht as <-.
    unfold judgedPerfect. rewrite Hcur, Hactive. cbn [negb andb].
    destruct (last (stackedBlocks s)) as [topRef|].
    + destruct Hcase as (top & -> & Hcase).
      destruct (Qgtb _ _); cbn [negb andb].
      * subst s'. cbn. lia.
      * destruct (Qltb _ _); apply landBlock_keeps in Hcase as (Hkeep & _);
          destruct Hkeep as (_ & _ & _ & -> & _); cbn; lia.
    + apply landBlock_keeps in Hcase as (Hkeep & _).
      destruct Hkeep as (_ & _ & _ & -> & _). lia.
  - unfold delayedSpawn in Hstep. destruct (pendingSpawns s) as [|n].
    + injection Hstep as <-. lia.
    + apply createNewBlock_keeps in Hstep as (Hkeep & _).
      destruct Hkeep as (_ & _ & _ & -> & _). cbn. lia.
  - injection Hstep as <-. cbn. lia.
  - discriminate Hgame.
Qed.

(** One event of a game moves the score by the Perfect bonus or not at all,
    and never touches the high score or the storage. *)
Lemma step_score (e : Event) (s s' : MainScene) :
  Invariant s → withinGame e = true → step e s = Some s' →
  score s'
  = (score s
     + match e with
       | PlaceCommit _ _ =>
           if negb (isPaused s || gameOver s) && judgedPerfect s
           then 50 * Z.min (perfectStreak s + 1) MAX_MULTIPLIER else 0
       | _ => 0
       end)%Z
  ∧ highScore s' = highScore s ∧ localStorage s' = localStorage s.
Proof.
  intros Hinv Hgame Hstep.
  destruct e as [time|rndX rndDir|rndX rndDir| |rndX rndDir]; cbn [step] in Hstep.
  - apply (update_keeps _ _ _ Hinv) in Hstep.
    destruct Hstep as (_ & _ & -> & -> & _ & _ & _ & _ & _ & _ & -> & _).
    split; [lia | split; reflexivity].
  - destruct (isPaused s) eqn:Hpaused; cbn [orb] in *.
    { injection Hstep as <-. cbn. split; [lia | split; reflexivity]. }
    destruct (gameOver s) eqn:Hover.
    { injection Hstep as <-. cbn. split; [lia | split; reflexivity]. }
    destruct (inv_current s Hinv) as (cur & active & Hcur & Hactive & Hw).
    assert (Playing s) as Hplay by (split; [|split]; [assumption..|rewrite Hcur; eauto]).
    destruct (placeBlock_in_game rndX rndDir s cur active Hinv Hplay Hcur Hactive)
      as (t & Ht & Hcase).
    rewrite Hstep in Ht. injection Ht as <-.
    unfold judgedPerfect. rewrite Hcur, Hactive. cbn [negb andb].
    destruct (last (stackedBlocks s)) as [topRef|].
    + destruct Hcase as (top & -> & Hcase).
      destruct (Qgtb _ _); cbn [negb andb].
      * subst s'. cbn. split; [lia | split; reflexivity].
      * destruct (Qltb _ _); apply landBlock_keeps in Hcase as (Hkeep & _);
          destruct Hkeep as (-> & -> & _ & _ & _ & _ & _ & _ & -> & _); cbn;
          (split; [lia | split; reflexivity]).
    + apply landBlock_keeps in Hcase as (Hkeep & _).
      destruct Hkeep as (-> & -> & _ & _ & _ & _ & _ & _ & -> & _).
      split; [lia | split; reflexivity].
  - unfold delayedSpawn in Hstep. destruct (pendingSpawns s) as [|n].
    + injection Hstep as <-. split; [lia | split; reflexivity].
    + apply createNewBlock_keeps in Hstep as (Hkeep & _).
      destruct Hkeep as (-> & -> & _ & _ & _ & _ & _ & _ & -> & _). cbn.
      split; [lia | split; reflexivity].
  - injection Hstep as <-. cbn. split; [lia | split; reflexivity].
  - discriminate Hgame.
Qed.

(** Throughout a game the high score and the storage are those it began with. *)
Lemma run_highScore (events : list Event) (s s' : MainScene) :
  Invariant s → forallb withinGame events = true → run events s = Some s' →
  highScore s' = highScore s ∧ localStorage s' = localStorage s.
Proof.
  revert s. induction events as [|e rest IH]; intros s Hinv Hgame Hrun.
  - injection Hrun as <-. split; reflexivity.
  - cbn [forallb] in Hgame. apply andb_true_iff in Hgame as [He Hrest].
    cbn [run] in Hrun.
    destruct (step e s) as [t|] eqn:Hstep; [|discriminate].
    cbn [mbind option_bind] in Hrun.
    destruct (IH t (step_invariant e s t Hinv Hstep) Hrest Hrun) as [-> ->].
    destruct (step_score e s t Hinv He Hstep) as (_ & -> & ->).
    split; reflexivity.
Qed.

Lemma update_total (time : Q) (s : MainScene) :
  Invariant s → is_Some (update time s).
Proof.
  intros Hinv. destruct (idle s) eqn:Hidle.
  { unfold update. rewrite Hidle. eauto. }
  apply Playing_not_idle in Hidle.
  destruct (inv_current s Hinv) as (cur & b & Hcur & Hb & Hw).
  destruct (update_playing time s cur b firstLevelConfig _ _ _ _ Hidle Hcur Hb
              (Invariant_config s Hinv) (inv_guide s Hinv)
              eq_refl eq_refl eq_refl eq_refl)
    as (t & x' & Ht & _).
  rewrite Ht. eauto.
Qed.

Lemma placeBlock_total (rndX rndDir : Q) (s : MainScene) :
  Invariant s → is_Some (placeBlock rndX rndDir s).
Proof.
  intros Hinv. destruct (idle s) eqn:Hidle.
  { unfold placeBlock. rewrite Hidle. eauto. }
  apply Playing_not_idle in Hidle.
  destruct (inv_current s Hinv) as (cur & b & Hcur & Hb & Hw).
  destruct (placeBlock_judged rndX rndDir s cur b firstLevelConfig Hidle Hcur Hb
              (Invariant_config s Hinv) (inv_stack s Hinv)) as (t & Ht & _).
  rewrite Ht. eauto.
Qed.

Lemma create_init_total (rndX rndDir : Q) (s : MainScene) :
  is_Some (create rndX rndDir (init s)).
Proof.
  unfold create. apply createNewBlock_total.
  - rewrite getCurrentBlockConfig_level_1; [eauto|].
    unfold init. scene_simpl. now destruct (localStorage s) as [|[saved|]].
  - unfold init. scene_simpl.
    destruct (localStorage s) as [|[saved|]]; apply Forall_nil_2.
Qed.

(** No event of a game makes the scene throw. *)
Lemma step_total (e : Event) (s : MainScene) : Invariant s → is_Some (step e s).
Proof.
  intros Hinv. destruct e as [time|rndX rndDir|rndX rndDir| |rndX rndDir]; cbn [step].
  - apply update_total, Hinv.
  - destruct (isPaused s || gameOver s); [eauto | apply placeBlock_total, Hinv].
  - unfold delayedSpawn. destruct (pendingSpawns s) as [|n]; [eauto|].
    apply createNewBlock_total.
    + rewrite (getCurrentBlockConfig_ext (set_pendingSpawns n s) s eq_refl).
      rewrite (Invariant_config s Hinv). eauto.
    + apply Hinv.
  - eauto.
  - destruct (gameOver s); [apply create_init_total | eauto].
Qed.

Lemma run_total (events : list Event) (s : MainScene) :
  Invariant s → is_Some (run events s).
Proof.
  revert s. induction events as [|e rest IH]; intros s Hinv; cbn [run]; [eauto|].
  destruct (step_total e s Hinv) as [t Hstep]. rewrite Hstep.
  cbn [mbind option_bind]. apply IH. eapply step_invariant; eauto.
Qed.

(** The streak after a run of events of one game. *)
Lemma run_perfectStreak (events : list Event) (s s' : MainScene) :
  Invariant s → forallb withinGame events = true → run events s = Some s' →
  perfectStreak s' = (perfectStreak s + perfectPlacements events s)%Z.
Proof.
  revert s. induction events as [|e rest IH]; intros s Hinv Hgame Hrun.
  - injection Hrun as <-. cbn. lia.
  - cbn [forallb] in Hgame. apply andb_true_iff in Hgame as [He Hrest].
    cbn [run] in Hrun. cbn [perfectPlacements].
    destruct (step e s) as [t|] eqn:Hstep; [|discriminate].
    cbn [mbind option_bind fmap option_fmap option_map default] in *.
    rewrite (IH t (step_invariant e s t Hinv Hstep) Hrest Hrun).
    rewrite (step_perfectStreak e s t Hinv He Hstep). unfold id.
    apply eq_sym, Z.add_assoc.
Qed.

(** While a [placeBlock] call is suspended the active block is the top of the
    stack: a frame moves the stacked block, and a further commit measures
    the block against itself and stacks it a second time. *)
Example suspended_block_is_shared :
  ∃ s s1 s2 top top1,
    play eightCommits = Some s ∧ pendingSpawns s = 1%nat ∧
    currentBlock s = Some 7%nat ∧ last (stackedBlocks s) = Some 7%nat ∧
    rectangles s !! 7%nat = Some top ∧ rect_x top == 400 ∧
    update 1000 s = Some s1 ∧
    rectangles s1 !! 7%nat = Some top1 ∧ rect_x top1 == 399.6 ∧
    placeBlock 0.5 0.5 s1 = Some s2 ∧ landedPerfect 7 s1 s2 ∧
    stackedBlocks s2 = [0; 1; 2; 3; 4; 5; 6; 7; 7]%nat.
Proof.
  exists (sceneAfter eightCommits), (sceneAfter (eightCommits ++ [Frame 1000])),
    (sceneAfter (eightCommits ++ [Frame 1000; PlaceCommit 0.5 0.5])).
  eexists _, _. unfold landedPerfect, landed.
  repeat apply conj; vm_compute; reflexivity.
Qed.

(** ** The bookkeeping that is never reached

    [updateScore] is the one place that adds the flat 10 points, raises the
    level and updates the high score; [init] is the one place that resets. *)

(** In a game [level] stays 1: only [updateScore] raises it. *)
Lemma reachable_level (s : MainScene) : reachable s → level s = 1%Z.
Proof. intros Hreach. apply reachable_invariant, Hreach. Qed.

(** In a game no placement guide exists: nothing creates one. *)
Lemma reachable_no_guide (s : MainScene) : reachable s → placementGuide s = false.
Proof. intros Hreach. apply reachable_invariant, Hreach. Qed.

Lemma updateScore_score (s : MainScene) : score (updateScore s) = (score s + 10)%Z.
Proof.
  unfold updateScore, updateHighScore. scene_simpl.
  repeat (match goal with |- context [if ?c then _ else _] => destruct c end
          || match goal with |- context [match ?c with _ => _ end] => destruct c end);
    reflexivity.
Qed.

Lemma updateScore_level (s : MainScene) :
  level (updateScore s)
  = if (Z.rem (Z.of_nat (length (stackedBlocks s))) 5 =? 0)%Z
    then (level s + 1)%Z else level s.
Proof.
  unfold updateScore, updateHighScore. scene_simpl.
  destruct (score s + 10 >? highScore s)%Z; scene_simpl;
    [destruct (localStorage s)|]; scene_simpl;
    destruct (Z.rem _ 5 =? 0)%Z; reflexivity.
Qed.

Lemma updateHighScore_max (s : MainScene) :
  highScore (updateHighScore s) = Z.max (highScore s) (score s).
Proof.
  unfold updateHighScore.
  destruct (Z.gtb_spec (score s) (highScore s)); scene_simpl;
    [destruct (localStorage s)|]; scene_simpl; lia.
Qed.

Lemma updateHighScore_saves (s : MainScene) (item : option Z) :
  localStorage s = StorageAvailable item → (score s > highScore s)%Z →
  localStorage (updateHighScore s) = StorageAvailable (Some (score s)).
Proof.
  intros Hst Hgt. unfold updateHighScore.
  destruct (Z.gtb_spec (score s) (highScore s)); [|lia].
  scene_simpl. now rewrite Hst.
Qed.

(** What [init] resets and what it keeps. *)
Lemma init_resets (s : MainScene) :
  score (init s) = 0%Z ∧ level (init s) = 1%Z ∧ gameOver (init s) = false ∧
  isPaused (init s) = false ∧ stackedBlocks (init s) = [] ∧
  blockShadows (init s) = [] ∧ moveSpeed (init s) = 2.
Proof. unfold init. scene_simpl. destruct (localStorage s) as [|[saved|]]; repeat split. Qed.

Lemma init_keeps (s : MainScene) :
  perfectStreak (init s) = perfectStreak s ∧
  currentVelocity (init s) = currentVelocity s ∧
  lastFrameTime (init s) = lastFrameTime s.
Proof. unfold init. scene_simpl. destruct (localStorage s) as [|[saved|]]; repeat split. Qed.

(** * The claims *)

(** C1 (the code departs from it).  The first block of a game lands and the
    score stays 0; the next block lands Perfect and the score is the bonus
    50 alone.  The flat 10 points per landing are added nowhere, since
    [placeBlock] does not call [updateScore]. *)
Theorem C1_flat_reward_not_added :
  Playing freshGame ∧ score freshGame = 0%Z ∧
  placeBlock 0.5 0.5 freshGame = Some stackedOnce ∧
  landedOrdinary 0 freshGame stackedOnce ∧ score stackedOnce = 0%Z ∧
  Playing stackedOnce ∧
  ∃ s', placeBlock 0.5 0.5 stackedOnce = Some s' ∧
    landedPerfect 1 stackedOnce s' ∧ score s' = 50%Z.
Proof.
  split; [unfold Playing; repeat apply conj; vm_compute; eauto|].
  split; [vm_compute; reflexivity|]. split; [vm_compute; reflexivity|].
  split; [unfold landedOrdinary, landedPerfect, landed; repeat apply conj;
          vm_compute; reflexivity|].
  split; [vm_compute; reflexivity|].
  split; [unfold Playing; repeat apply conj; vm_compute; eauto|].
  exists (sceneAfter [PlaceCommit 0.5 0.5; PlaceCommit 0.5 0.5]).
  split; [vm_compute; reflexivity|].
  split; [unfold landedOrdinary, landedPerfect, landed; repeat apply conj;
          vm_compute; reflexivity|]. vm_compute. reflexivity.
Qed.

(** C2 (the code departs from it).  After five landings the stack holds five
    blocks and the level is still 1. *)
Theorem C2_level_not_raised :
  ∃ s, play fiveCommits = Some s ∧ gameOver s = false ∧
    length (stackedBlocks s) = 5%nat ∧ level s = 1%Z.
Proof.
  exists (sceneAfter fiveCommits).
  split; [vm_compute; reflexivity|]. repeat apply conj; vm_compute; reflexivity.
Qed.

(** C3 (the code departs from it).  With an empty, working storage the second
    landing brings the score to 50; the high score stays 0 and nothing is
    saved. *)
Theorem C3_high_score_not_updated :
  ∃ s, play [PlaceCommit 0.5 0.5; PlaceCommit 0.5 0.5] = Some s ∧
    score s = 50%Z ∧ highScore s = 0%Z ∧ localStorage s = StorageAvailable None.
Proof.
  exists (sceneAfter [PlaceCommit 0.5 0.5; PlaceCommit 0.5 0.5]).
  split; [vm_compute; reflexivity|]. repeat apply conj; vm_compute; reflexivity.
Qed.

(** C4 as stated fails.  The third placement of this game is Ordinary (the
    block at x = 407 lands on the block at x = 400, distance 7) and leaves the
    streak at 1, where the claim has it back at 0. *)
Lemma C4_counterexample :
  reachable offCentre ∧ Playing offCentre ∧ perfectStreak offCentre = 1%Z ∧
  judgedPerfect offCentre = false ∧
  ∃ s', placeBlock 0.5 0.5 offCentre = Some s' ∧ landedOrdinary 2 offCentre s' ∧
    perfectStreak s' = 1%Z ∧ perfectStreak s' ≠ 0%Z.
Proof.
  split.
  { exists (StorageAvailable None), 0.5, 0.5,
      [PlaceCommit 0.5 0.5; PlaceCommit 0.51 0.5], freshGame.
    split; vm_compute; reflexivity. }
  split; [unfold Playing; repeat apply conj; vm_compute; eauto|].
  split; [vm_compute; reflexivity|]. split; [vm_compute; reflexivity|].
  exists (sceneAfter [PlaceCommit 0.5 0.5; PlaceCommit 0.51 0.5; PlaceCommit 0.5 0.5]).
  split; [vm_compute; reflexivity|].
  split; [unfold landedOrdinary, landed; repeat apply conj; vm_compute; reflexivity|].
  split; [vm_compute; reflexivity|]. vm_compute. discriminate.
Qed.

(** C4, amended.  During a game [perfectStreak] counts the Perfect placements
    made in it, on top of the value it had before them: each Perfect
    placement increments it by 1 and every Ordinary placement, like every
    other event of the game, leaves it unchanged. *)
Theorem C4_streak_counts_perfect_placements (events : list Event) (s : MainScene) :
  reachable s → forallb withinGame events = true →
  ∃ s', run events s = Some s' ∧
    perfectStreak s' = (perfectStreak s + perfectPlacements events s)%Z.
Proof.
  intros Hreach Hgame. apply reachable_invariant in Hreach.
  destruct (run_total events s Hreach) as [s' Hrun].
  exists s'. split; [exact Hrun|].
  exact (run_perfectStreak events s s' Hreach Hgame Hrun).
Qed.

Lemma C4_streak_counts_perfect_placements_witness :
  reachable freshGame ∧
  perfectPlacements [PlaceCommit 0.5 0.5; PlaceCommit 0.51 0.5] freshGame = 1%Z ∧
  ∃ s', run [PlaceCommit 0.5 0.5; PlaceCommit 0.51 0.5] freshGame = Some s' ∧
    perfectStreak s'
    = (perfectStreak freshGame
       + perfectPlacements [PlaceCommit 0.5 0.5; PlaceCommit 0.51 0.5] freshGame)%Z.
Proof.
  assert (reachable freshGame) as Hreach.
  { exists (StorageAvailable None), 0.5, 0.5, [], freshGame.
    split; vm_compute; reflexivity. }
  split; [exact Hreach|]. split; [vm_compute; reflexivity|].
  apply (C4_streak_counts_perfect_placements
           [PlaceCommit 0.5 0.5; PlaceCommit 0.51 0.5] freshGame Hreach).
  vm_compute. reflexivity.
Defined.

(** C5.  On a placement commit while Playing with an active block: on an empty
    stack the block always lands and the game is not over; on a non-empty
    stack, with distance = |activeBlock.x - topOfStack.x|, the commit is a
    Miss (Game Over) exactly when distance > activeBlock.width * 0.5, a
    Perfect landing exactly when it is not a Miss and distance < 5, and an
    Ordinary landing exactly in the remaining case. *)
Theorem C5_placement_judgment (rndX rndDir : Q) (s : MainScene) (cur : nat)
    (active : Rectangle) :
  reachable s → Playing s →
  currentBlock s = Some cur → rectangles s !! cur = Some active →
  ∃ s', placeBlock rndX rndDir s = Some s' ∧
    match last (stackedBlocks s) with
    | None => landed cur s s'
    | Some topRef =>
        ∃ top, rectangles s !! topRef = Some top ∧
          let distance := Qabs (rect_x active - rect_x top) in
          (missed s s' ↔ distance > rect_width active * 0.5) ∧
          (landedPerfect cur s s'
           ↔ ¬ distance > rect_width active * 0.5 ∧ distance < 5) ∧
          (landedOrdinary cur s s'
           ↔ ¬ distance > rect_width active * 0.5 ∧ ¬ distance < 5)
    end.
Proof.
  intros Hreach Hplay Hcur Hactive.
  destruct (placeBlock_in_game rndX rndDir s cur active
              (reachable_invariant s Hreach) Hplay Hcur Hactive)
    as (s' & Hs' & Hcase).
  exists s'. split; [exact Hs'|].
  destruct Hplay as (Hover & _ & _).
  destruct (last (stackedBlocks s)) as [topRef|].
  - destruct Hcase as (top & Htop & Hcase). exists top. split; [exact Htop|].
    cbv zeta.
    set (distance := Qabs (rect_x active - rect_x top)) in *.
    destruct (Qgtb distance (rect_width active * 0.5)) eqn:Hmiss.
    + apply Qgtb_gt in Hmiss. subst s'.
      unfold missed, landedPerfect, landedOrdinary, landed. scene_simpl.
      repeat split; try tauto; intros; try discriminate; intuition discriminate.
    + apply Qgtb_le in Hmiss.
      assert (¬ distance > rect_width active * 0.5) as Hnot
        by (apply Qle_not_lt, Hmiss).
      destruct (Qltb distance 5) eqn:Hperfect;
        [apply Qltb_lt in Hperfect | apply Qltb_ge, Qle_not_lt in Hperfect];
        apply landBlock_keeps in Hcase as (Hkeep & Hstack);
        destruct Hkeep as (_ & _ & _ & Hstreak & Hover' & _);
        unfold handlePerfectPlacement in Hstreak, Hover', Hstack;
        scene_simpl; rewrite Hover in Hover';
        unfold missed, landedPerfect, landedOrdinary, landed;
        rewrite Hstreak, Hover', Hstack;
        (split; [split; [intros [? _]; discriminate | tauto] |]);
        (split; (split; [|tauto])); intros [_ Heq]; try tauto; lia.
  - apply landBlock_keeps in Hcase as (Hkeep & Hstack).
    destruct Hkeep as (_ & _ & _ & _ & Hover' & _).
    split; [now rewrite Hover' | exact Hstack].
Qed.

Lemma C5_placement_judgment_witness :
  reachable stackedOnce ∧ Playing stackedOnce ∧
  ∃ s', placeBlock 0.5 0.5 stackedOnce = Some s'.
Proof.
  assert (reachable stackedOnce) as Hreach.
  { exists (StorageAvailable None), 0.5, 0.5, [PlaceCommit 0.5 0.5], (sceneAfter []).
    split; vm_compute; reflexivity. }
  assert (Playing stackedOnce) as Hplay.
  { unfold Playing. repeat apply conj; vm_compute; eauto. }
  split; [exact Hreach|]. split; [exact Hplay|].
  edestruct (C5_placement_judgment 0.5 0.5 stackedOnce 1%nat) as (s' & Hs' & _).
  - exact Hreach.
  - exact Hplay.
  - vm_compute. reflexivity.
  - vm_compute. reflexivity.
  - exists s'. exact Hs'.
Defined.

(** C6.  On every Perfect placement (a landing with distance < 5 on a
    non-empty stack) [perfectStreak] is incremented, and the score grows by
    exactly 50 * multiplier, where multiplier = min(perfectStreak, 5) is
    taken from the incremented streak. *)
Theorem C6_perfect_bonus (rndX rndDir : Q) (s : MainScene) (cur topRef : nat)
    (active top : Rectangle) :
  reachable s → Playing s →
  currentBlock s = Some cur → rectangles s !! cur = Some active →
  last (stackedBlocks s) = Some topRef → rectangles s !! topRef = Some top →
  ¬ Qabs (rect_x active - rect_x top) > rect_width active * 0.5 →
  Qabs (rect_x active - rect_x top) < 5 →
  ∃ s', placeBlock rndX rndDir s = Some s' ∧ landed cur s s' ∧
    perfectStreak s' = (perfectStreak s + 1)%Z ∧
    score s' = (score s + 50 * Z.min (perfectStreak s') MAX_MULTIPLIER)%Z.
Proof.
  intros Hreach Hplay Hcur Hactive Hlast Htop Hhit Hnear.
  destruct (placeBlock_in_game rndX rndDir s cur active
              (reachable_invariant s Hreach) Hplay Hcur Hactive)
    as (s' & Hs' & Hcase).
  exists s'. split; [exact Hs'|].
  rewrite Hlast in Hcase. destruct Hcase as (top' & Htop' & Hcase).
  rewrite Htop in Htop'. injection Htop' as <-.
  apply Qnot_lt_le, Qgtb_le in Hhit. apply Qltb_lt in Hnear.
  rewrite Hhit, Hnear in Hcase.
  apply landBlock_keeps in Hcase as (Hkeep & Hstack).
  destruct Hkeep as (Hscore & _ & _ & Hstreak & Hover & _).
  unfold handlePerfectPlacement in Hscore, Hstreak, Hover, Hstack. scene_simpl.
  destruct Hplay as (Hover0 & _ & _).
  split; [split; [congruence | exact Hstack] |].
  split; [exact Hstreak|]. rewrite Hscore, Hstreak. reflexivity.
Qed.

Lemma C6_perfect_bonus_witness :
  reachable stackedOnce ∧ Playing stackedOnce ∧
  ∃ s', placeBlock 0.5 0.5 stackedOnce = Some s' ∧
    perfectStreak s' = 1%Z ∧ score s' = 50%Z.
Proof.
  assert (reachable stackedOnce) as Hreach.
  { exists (StorageAvailable None), 0.5, 0.5, [PlaceCommit 0.5 0.5], (sceneAfter []).
    split; vm_compute; reflexivity. }
  assert (Playing stackedOnce) as Hplay.
  { unfold Playing. repeat apply conj; vm_compute; eauto. }
  split; [exact Hreach|]. split; [exact Hplay|].
  edestruct (C6_perfect_bonus 0.5 0.5 stackedOnce 1%nat 0%nat)
    as (s' & Hs' & _ & Hstreak & Hscore).
  - exact Hreach.
  - exact Hplay.
  - vm_compute. reflexivity.
  - vm_compute. reflexivity.
  - vm_compute. reflexivity.
  - vm_compute. reflexivity.
  - vm_compute. intros H. discriminate H.
  - vm_compute. reflexivity.
  - exists s'. split; [exact Hs'|]. rewrite Hscore, Hstreak. split; reflexivity.
Defined.

(** C7 (the code departs from it).  One block is stacked at x = 400 and the
    active block moves from 400 to 399.6 in the frame, 0.4 away from the
    block below; the frame leaves it at 399.6, not at the interpolated
    399.6384. *)
Theorem C7_snap_assist_not_run :
  reachable stackedOnce ∧ Playing stackedOnce ∧
  ∃ s' top b,
    update 1000 stackedOnce = Some s' ∧ frameDelta 1000 stackedOnce == 1 ∧
    last (stackedBlocks s') = Some 0%nat ∧ rectangles s' !! 0%nat = Some top ∧
    currentBlock s' = Some 1%nat ∧ rectangles s' !! 1%nat = Some b ∧
    rect_x top == 400 ∧ rect_x b == 399.6 ∧
    Qabs (rect_x top - 399.6) == 0.4 ∧ 0.4 < BLOCK_SNAP_THRESHOLD ∧
    Linear 399.6 (rect_x top) ((1 - 0.4 / BLOCK_SNAP_THRESHOLD) * 0.1 * 1) == 399.6384.
Proof.
  split.
  { exists (StorageAvailable None), 0.5, 0.5, [PlaceCommit 0.5 0.5], freshGame.
    split; vm_compute; reflexivity. }
  split; [unfold Playing; repeat apply conj; vm_compute; eauto|].
  exists (sceneAfter [PlaceCommit 0.5 0.5; Frame 1000]).
  eexists _, _.
  split; [vm_compute; reflexivity|]. split; [vm_compute; reflexivity|].
  split; [vm_compute; reflexivity|]. split; [vm_compute; reflexivity|].
  split; [vm_compute; reflexivity|]. split; [vm_compute; reflexivity|].
  repeat apply conj; vm_compute; reflexivity.
Qed.

(** C8 as stated fails.  The velocity the first frame of this game leaves is
    -0.4, the increment moveSpeed * 0.2 * 1 with moveSpeed = -2; the sign of
    the direction alone would give -0.2. *)
Lemma C8_counterexample :
  reachable freshGame ∧ Playing freshGame ∧
  currentVelocity freshGame == 0 ∧ moveSpeed freshGame == -2 ∧
  frameDelta 1000 freshGame == 1 ∧
  ∃ s', update 1000 freshGame = Some s' ∧ currentVelocity s' == -0.4 ∧
    ¬ currentVelocity s'
      == Clamp (currentVelocity freshGame
                + Qsign (moveSpeed freshGame) * BLOCK_ACCELERATION
                  * frameDelta 1000 freshGame)
           (- MAX_BLOCK_SPEED) MAX_BLOCK_SPEED.
Proof.
  split.
  { exists (StorageAvailable None), 0.5, 0.5, [], freshGame.
    split; vm_compute; reflexivity. }
  split; [unfold Playing; repeat apply conj; vm_compute; eauto|].
  split; [vm_compute; reflexivity|]. split; [vm_compute; reflexivity|].
  split; [vm_compute; reflexivity|].
  exists (sceneAfter [Frame 1000]).
  split; [vm_compute; reflexivity|]. split; [vm_compute; reflexivity|].
  vm_compute. discriminate.
Qed.

(** C8, amended.  On each frame update while Playing the velocity is first
    incremented by moveSpeed * ACCELERATION * dt, where moveSpeed is the
    signed nominal speed of the block (its magnitude is the configured block
    speed, not 1), and then clamped to [-MAX_SPEED, MAX_SPEED]; that value is
    the velocity the frame leaves, unless the block reaches a wall in the
    same frame, when it is multiplied by -BOUNCE_ELASTICITY. *)
Theorem C8_velocity_update (time : Q) (s : MainScene) (cur : nat) (b : Rectangle)
    (config : BlockConfig) :
  reachable s → Playing s →
  currentBlock s = Some cur → rectangles s !! cur = Some b →
  getCurrentBlockConfig s = Some config →
  let deltaTime := frameDelta time s in
  let v := Clamp (currentVelocity s + moveSpeed s * BLOCK_ACCELERATION * deltaTime)
             (- MAX_BLOCK_SPEED) MAX_BLOCK_SPEED in
  let x := rect_x b + v * deltaTime in
  let margin := width config / 2 in
  currentVelocity (accelerate deltaTime s) = v ∧
  - MAX_BLOCK_SPEED <= v <= MAX_BLOCK_SPEED ∧
  ∃ s', update time s = Some s' ∧
    currentVelocity s'
    = if Qgeb x (gameWidth s - margin) || Qle_bool x margin
      then v * - BLOCK_BOUNCE_ELASTICITY else v.
Proof.
  intros Hreach Hplay Hcur Hb Hconfig deltaTime v x margin.
  split; [reflexivity|].
  split; [apply Clamp_bounds; unfold MAX_BLOCK_SPEED; lra|].
  apply reachable_invariant in Hreach.
  destruct (update_playing time s cur b config deltaTime v x margin Hplay Hcur Hb
              Hconfig (inv_guide s Hreach) eq_refl eq_refl eq_refl eq_refl)
    as (s' & x' & Hs' & _ & _ & Hcase).
  exists s'. split; [exact Hs'|].
  destruct (Qgeb x (gameWidth s - margin)); [apply Hcase|].
  destruct (Qle_bool x margin); apply Hcase.
Qed.

Lemma C8_velocity_update_witness :
  reachable stackedOnce ∧ Playing stackedOnce ∧
  ∃ s', update 1000 stackedOnce = Some s'.
Proof.
  assert (reachable stackedOnce) as Hreach.
  { exists (StorageAvailable None), 0.5, 0.5, [PlaceCommit 0.5 0.5], (sceneAfter []).
    split; vm_compute; reflexivity. }
  assert (Playing stackedOnce) as Hplay.
  { unfold Playing. repeat apply conj; vm_compute; eauto. }
  split; [exact Hreach|]. split; [exact Hplay|].
  edestruct (C8_velocity_update 1000 stackedOnce 1%nat) as (_ & _ & s' & Hs' & _).
  - exact Hreach.
  - exact Hplay.
  - vm_compute. reflexivity.
  - vm_compute. reflexivity.
  - vm_compute. reflexivity.
  - exists s'. exact Hs'.
Defined.

(** C9.  After every frame update while Playing, the velocity lies within
    [-MAX_BLOCK_SPEED, MAX_BLOCK_SPEED] and the active block's x lies within
    [margin, gameWidth - margin], where margin is half the block's width. *)
Theorem C9_motion_bounds (time : Q) (s : MainScene) :
  reachable s → Playing s →
  ∃ s' cur b,
    update time s = Some s' ∧
    currentBlock s' = Some cur ∧ rectangles s' !! cur = Some b ∧
    - MAX_BLOCK_SPEED <= currentVelocity s' <= MAX_BLOCK_SPEED ∧
    rect_width b / 2 <= rect_x b <= gameWidth s' - rect_width b / 2.
Proof.
  intros Hreach Hplay. apply reachable_invariant in Hreach.
  destruct (inv_current s Hreach) as (cur & b & Hcur & Hb & Hw).
  destruct (update_playing time s cur b firstLevelConfig _ _ _ _ Hplay Hcur Hb
              (Invariant_config s Hreach) (inv_guide s Hreach)
              eq_refl eq_refl eq_refl eq_refl)
    as (s' & x' & Hs' & Hkeep & Hrect & Hcase).
  destruct Hkeep as (Hc & _ & _ & _ & _ & _ & _ & _ & Hgw & _).
  exists s', cur, (rect_set_x x' b).
  split; [exact Hs'|]. split; [now rewrite Hc|].
  split; [rewrite Hrect; eapply lookup_modified, Hb|].
  rewrite Hgw, (inv_gameWidth s Hreach) in *. scene_simpl. rewrite Hw.
  set (v := Clamp _ _ _) in Hcase.
  assert (- MAX_BLOCK_SPEED <= v <= MAX_BLOCK_SPEED) as Hv.
  { apply Clamp_bounds. unfold MAX_BLOCK_SPEED. lra. }
  change (width firstLevelConfig) with 100 in Hcase. unfold canvas_width in *.
  destruct (Qgeb _ _) eqn:Hright; [|destruct (Qle_bool _ _) eqn:Hleft].
  - destruct Hcase as (-> & -> & _).
    split; [apply velocity_after_bounce, Hv|].
    split; [apply Qle_bool_iff; reflexivity | apply Qle_refl].
  - destruct Hcase as (-> & -> & _).
    split; [apply velocity_after_bounce, Hv|].
    split; [apply Qle_refl | apply Qle_bool_iff; reflexivity].
  - destruct Hcase as (-> & -> & _).
    apply Qgeb_lt in Hright. apply Qle_bool_gt in Hleft.
    split; [exact Hv | lra].
Qed.

Lemma C9_motion_bounds_witness :
  reachable stackedOnce ∧ Playing stackedOnce ∧
  ∃ s', update 1000 stackedOnce = Some s' ∧
    - MAX_BLOCK_SPEED <= currentVelocity s' <= MAX_BLOCK_SPEED.
Proof.
  assert (reachable stackedOnce) as Hreach.
  { exists (StorageAvailable None), 0.5, 0.5, [PlaceCommit 0.5 0.5], (sceneAfter []).
    split; vm_compute; reflexivity. }
  assert (Playing stackedOnce) as Hplay.
  { unfold Playing. repeat apply conj; vm_compute; eauto. }
  split; [exact Hreach|]. split; [exact Hplay|].
  destruct (C9_motion_bounds 1000 stackedOnce Hreach Hplay)
    as (s' & cur & b & Hs' & _ & _ & Hv & _).
  exists s'. split; [exact Hs' | exact Hv].
Defined.

(** C10 (the code departs from it).  A game lost with a streak of 1 and a
    velocity of -0.8 is restarted: score, level and stack are reset, the
    streak is still 1, the velocity still -0.8 and the frame clock still
    that of the old game. *)
Theorem C10_restart_keeps_streak_and_velocity :
  reachable lostGame ∧ gameOver lostGame = true ∧
  perfectStreak lostGame = 1%Z ∧ currentVelocity lostGame == -0.8 ∧
  ∃ s', step (RestartPressed 0.5 0.5) lostGame = Some s' ∧
    score s' = 0%Z ∧ level s' = 1%Z ∧ stackedBlocks s' = [] ∧ gameOver s' = false ∧
    perfectStreak s' = 1%Z ∧ currentVelocity s' == -0.8 ∧
    lastFrameTime s' == 1016.667.
Proof.
  split.
  { exists (StorageAvailable None), 0.5, 0.5,
      [PlaceCommit 0.5 0.5; Frame 1000; Frame 1016.667;
       PlaceCommit 0 0.5; PlaceCommit 0 0], freshGame.
    split; vm_compute; reflexivity. }
  split; [vm_compute; reflexivity|]. split; [vm_compute; reflexivity|].
  split; [vm_compute; reflexivity|].
  exists (sceneAfter [PlaceCommit 0.5 0.5; Frame 1000; Frame 1016.667;
                      PlaceCommit 0 0.5; PlaceCommit 0 0; RestartPressed 0.5 0.5]).
  split; [vm_compute; reflexivity|]. repeat apply conj; vm_compute; reflexivity.
Qed.

(** * Beyond the claims *)

(** ** The difficulty model *)

(** From level 1 upwards [getCurrentBlockConfig] picks entry
    [floor((level - 1) / 3) mod 4] of [blockTypes]. *)
Lemma getCurrentBlockConfig_shape (s : MainScene) :
  (1 <= level s)%Z →
  ∃ base,
    blockTypes !! Z.to_nat (((level s - 1) / 3) mod 4) = Some base ∧
    getCurrentBlockConfig s
    = Some {| width := width base; height := height base; color := color base;
              speed := speed base + Qmin (inject_Z (level s - 1) * 0.1) 2 |}.
Proof.
  intros Hl. unfold getCurrentBlockConfig, blockTypes_at.
  set (q := ((level s - 1) / 3)%Z).
  assert (0 <= q)%Z as Hq by (apply Z.div_pos; lia).
  change (Z.of_nat (length blockTypes)) with 4%Z.
  rewrite Z.rem_mod_nonneg by lia.
  assert (0 <= q mod 4 < 4)%Z as Hr by (apply Z.mod_pos_bound; lia).
  replace (Z.min (q mod 4) (4 - 1)) with (q mod 4)%Z by lia.
  destruct (Z.ltb_spec (q mod 4) 0) as [?|_]; [lia|].
  destruct (blockTypes !! Z.to_nat (q mod 4)) as [base|] eqn:Hlook.
  - exists base. split; reflexivity.
  - apply lookup_ge_None in Hlook. simpl in Hlook. lia.
Qed.

Lemma blockTypes_cases (i : Z) (base : BlockConfig) :
  (0 <= i < 4)%Z → blockTypes !! Z.to_nat i = Some base →
  (i = 0%Z ∧ base = {| width := 100; height := 50; color := COLORS standard; speed := 2 |})
  ∨ (i = 1%Z ∧ base = {| width := 150; height := 50; color := COLORS wide; speed := 2.5 |})
  ∨ (i = 2%Z ∧ base = {| width := 80; height := 50; color := COLORS narrow; speed := 3 |})
  ∨ (i = 3%Z ∧ base = {| width := 100; height := 50; color := COLORS fast; speed := 3.5 |}).
Proof.
  intros Hi Hlook.
  assert (i = 0 ∨ i = 1 ∨ i = 2 ∨ i = 3)%Z as [-> | [-> | [-> | ->]]] by lia;
    cbn in Hlook; injection Hlook as <-; auto.
Qed.

Lemma speedIncrease_bounds (n : Z) :
  (0 <= n)%Z → 0 <= Qmin (inject_Z n * 0.1) 2 <= 2.
Proof.
  intros Hn. split; [|apply Q.le_min_r].
  apply Q.min_glb; [|lra].
  assert (0 <= inject_Z n) as H.
  { change 0 with (inject_Z 0). rewrite <- Zle_Qle. exact Hn. }
  lra.
Qed.

(** X1.  From level 1 upwards [getCurrentBlockConfig] does not throw, and the
    configuration it returns is 80, 100 or 150 wide, 50 high, with a speed
    between 2 and 5.5. *)
Theorem X1_config_in_range (s : MainScene) :
  (1 <= level s)%Z →
  ∃ config,
    getCurrentBlockConfig s = Some config ∧
    (width config = 80 ∨ width config = 100 ∨ width config = 150) ∧
    height config = 50 ∧ 2 <= speed config <= 5.5.
Proof.
  intros Hl. destruct (getCurrentBlockConfig_shape s Hl) as (base & Hbase & ->).
  eexists. split; [reflexivity|]. cbn [width height speed].
  pose proof (speedIncrease_bounds (level s - 1) ltac:(lia)) as Hinc.
  apply blockTypes_cases in Hbase; [|apply Z.mod_pos_bound; lia].
  destruct Hbase as [[_ Hb]|[[_ Hb]|[[_ Hb]|[_ Hb]]]]; rewrite Hb; cbn [width height speed];
    (split; [auto|]); (split; [reflexivity|]); lra.
Qed.

Lemma X1_config_in_range_witness :
  (1 <= level freshGame)%Z ∧ ∃ config, getCurrentBlockConfig freshGame = Some config.
Proof.
  assert (1 <= level freshGame)%Z as Hl by (vm_compute; discriminate).
  split; [exact Hl|].
  destruct (X1_config_in_range freshGame Hl) as (config & Hc & _).
  exists config. exact Hc.
Defined.

(** X2.  The shape of the block repeats every 12 levels: width, height and
    colour at level + 12 are those at level.  From level 21 on the speed
    bonus is at its cap, so the speed repeats as well. *)
Theorem X2_config_period (s : MainScene) :
  (1 <= level s)%Z →
  ∃ config later,
    getCurrentBlockConfig s = Some config ∧
    getCurrentBlockConfig (set_level (level s + 12) s) = Some later ∧
    width later = width config ∧ height later = height config ∧
    color later = color config ∧
    speed config <= speed later ∧
    ((21 <= level s)%Z → speed later == speed config).
Proof.
  intros Hl.
  destruct (getCurrentBlockConfig_shape s Hl) as (base & Hbase & ->).
  destruct (getCurrentBlockConfig_shape (set_level (level s + 12) s))
    as (base' & Hbase' & ->); [scene_simpl; lia|].
  scene_simpl.
  replace ((level s + 12 - 1) / 3)%Z with ((level s - 1) / 3 + 1 * 4)%Z in Hbase'.
  2:{ replace (level s + 12 - 1)%Z with (level s - 1 + 4 * 3)%Z by lia.
      rewrite Z.div_add by lia. lia. }
  rewrite Z.mod_add in Hbase' by lia.
  rewrite Hbase in Hbase'. injection Hbase' as <-.
  eexists _, _. split; [reflexivity|]. split; [reflexivity|]. cbn [width height color speed].
  repeat apply conj; try reflexivity.
  - assert (inject_Z (level s - 1) <= inject_Z (level s + 12 - 1)) as Hle
      by (rewrite <- Zle_Qle; lia).
    assert (Qmin (inject_Z (level s - 1) * 0.1) 2
            <= Qmin (inject_Z (level s + 12 - 1) * 0.1) 2) as Hmin.
    { apply Q.min_le_compat_r. lra. }
    lra.
  - intros Hcap.
    assert (20 <= inject_Z (level s - 1)) as H1
      by (change 20 with (inject_Z 20); rewrite <- Zle_Qle; lia).
    assert (20 <= inject_Z (level s + 12 - 1)) as H2
      by (change 20 with (inject_Z 20); rewrite <- Zle_Qle; lia).
    rewrite !Q.min_r by lra. reflexivity.
Qed.

Lemma X2_config_period_witness :
  (1 <= level freshGame)%Z ∧
  ∃ config later,
    getCurrentBlockConfig freshGame = Some config ∧
    getCurrentBlockConfig (set_level (level freshGame + 12) freshGame) = Some later ∧
    width later = width config.
Proof.
  assert (1 <= level freshGame)%Z as Hl by (vm_compute; discriminate).
  split; [exact Hl|].
  destruct (X2_config_period freshGame Hl) as (config & later & Hc & Hlater & Hw & _).
  exists config, later. repeat apply conj; assumption.
Defined.

(** X3.  The block is drawn in the standard colour on levels 1 to 3 only:
    from level 4 on [getBlockType] answers wide, narrow or fast, also for the
    100-wide standard shape when it comes back at level 13, which is then
    faster than 2.5. *)
Theorem X3_standard_colour_levels (s : MainScene) (config : BlockConfig) :
  (1 <= level s)%Z → getCurrentBlockConfig s = Some config →
  (getBlockType config = standard ↔ (level s <= 3)%Z).
Proof.
  intros Hl Hconfig.
  destruct (getCurrentBlockConfig_shape s Hl) as (base & Hbase & Heq).
  rewrite Hconfig in Heq. injection Heq as ->.
  destruct (Z_le_gt_dec (level s) 6) as [Hsmall|Hbig].
  - assert (level s = 1 ∨ level s = 2 ∨ level s = 3 ∨ level s = 4 ∨ level s = 5
            ∨ level s = 6)%Z as Hcases by lia.
    destruct Hcases as [H|[H|[H|[H|[H|H]]]]]; rewrite H in *;
      cbn in Hbase; injection Hbase as <-;
      (split; [intros Hstd; try lia; vm_compute in Hstd; discriminate Hstd
              | intros Hle; try lia; vm_compute; reflexivity]).
  - split; [|lia]. intros Hstd. exfalso.
    assert (6 <= inject_Z (level s - 1)) as H1
      by (change 6 with (inject_Z 6); rewrite <- Zle_Qle; lia).
    assert (0.6 <= Qmin (inject_Z (level s - 1) * 0.1) 2) as Hinc
      by (apply Q.min_glb; lra).
    apply blockTypes_cases in Hbase; [|apply Z.mod_pos_bound; lia].
    unfold getBlockType in Hstd. cbn [width speed] in Hstd.
    destruct Hbase as [[_ Hb]|[[_ Hb]|[[_ Hb]|[_ Hb]]]]; rewrite Hb in Hstd;
      cbn [width speed] in Hstd.
    + change (Qgtb 100 100) with false in Hstd. change (Qltb 100 100) with false in Hstd.
      cbn iota in Hstd.
      destruct (Qgtb _ 2.5) eqn:Hfast; [discriminate|]. apply Qgtb_le in Hfast. lra.
    + change (Qgtb 150 100) with true in Hstd. discriminate.
    + change (Qgtb 80 100) with false in Hstd. change (Qltb 80 100) with true in Hstd.
      discriminate.
    + change (Qgtb 100 100) with false in Hstd. change (Qltb 100 100) with false in Hstd.
      cbn iota in Hstd.
      destruct (Qgtb _ 2.5) eqn:Hfast; [discriminate|]. apply Qgtb_le in Hfast. lra.
Qed.

Lemma X3_standard_colour_levels_witness :
  (1 <= level freshGame)%Z ∧
  getCurrentBlockConfig freshGame = Some firstLevelConfig ∧
  getBlockType firstLevelConfig = standard.
Proof.
  assert (1 <= level freshGame)%Z as Hl by (vm_compute; discriminate).
  assert (getCurrentBlockConfig freshGame = Some firstLevelConfig) as Hc
    by (vm_compute; reflexivity).
  split; [exact Hl|]. split; [exact Hc|].
  apply (X3_standard_colour_levels freshGame firstLevelConfig Hl Hc).
  vm_compute. discriminate.
Defined.

(** ** The placement guide *)




Lemma interpolation_between (x target t : Q) :
  0 <= t <= 1 →
  (x <= target → x <= Linear x target t <= target) ∧
  (target <= x → target <= Linear x target t <= x).
Proof.
  intros [Ht0 Ht1]. unfold Linear. split; intros Hside.
  - assert (0 <= (target - x) * t) as H1 by (apply Qmult_le_0_compat; lra).
    assert (0 <= (target - x) * (1 - t)) as H2 by (apply Qmult_le_0_compat; lra).
    lra.
  - assert (0 <= (x - target) * t) as H1 by (apply Qmult_le_0_compat; lra).
    assert (0 <= (x - target) * (1 - t)) as H2 by (apply Qmult_le_0_compat; lra).
    lra.
Qed.

(** X5.  Where a placement guide exists, the snap of a frame with
    0 <= deltaTime <= 10 moves a block that is closer than the snap threshold
    towards the block below without passing it: the block stays on its side
    and the distance does not grow. *)
Theorem X5_snap_does_not_overshoot (cur topRef : nat) (deltaTime : Q)
    (s : MainScene) (b top : Rectangle) :
  placementGuide s = true →
  last (stackedBlocks s) = Some topRef → rectangles s !! topRef = Some top →
  rectangles s !! cur = Some b →
  Qabs (rect_x top - rect_x b) < BLOCK_SNAP_THRESHOLD →
  0 <= deltaTime <= 10 →
  ∃ s' b',
    snapAssist cur deltaTime s = Some s' ∧ rectangles s' !! cur = Some b' ∧
    (rect_x b <= rect_x top → rect_x b <= rect_x b' <= rect_x top) ∧
    (rect_x top <= rect_x b → rect_x top <= rect_x b' <= rect_x b) ∧
    Qabs (rect_x top - rect_x b') <= Qabs (rect_x top - rect_x b).
Proof.
  intros Hguide Hlast Htop Hb Hnear [Hdt0 Hdt1].
  destruct (snapAssist_with_guide cur topRef deltaTime s b top Hguide Hlast Htop Hb
              Hnear) as (s' & b' & Hs' & Hb' & Hx).
  exists s', b'. split; [exact Hs'|]. split; [exact Hb'|].
  unfold BLOCK_SNAP_THRESHOLD in *.
  pose proof (Qabs_nonneg (rect_x top - rect_x b)) as Hd0.
  set (d := Qabs (rect_x top - rect_x b)) in *.
  assert (0 <= (1 - d / 10) * 0.1 * deltaTime <= 1) as Ht.
  { assert (d / 10 == d * 0.1) as -> by (unfold Qdiv; reflexivity).
    assert (0 <= (1 - d * 0.1) * deltaTime) as H1
      by (apply Qmult_le_0_compat; lra).
    assert (0 <= (d * 0.1) * deltaTime) as H2
      by (apply Qmult_le_0_compat; lra).
    split; lra. }
  destruct (interpolation_between (rect_x b) (rect_x top) _ Ht) as [Hleft Hright].
  rewrite <- Hx in Hleft, Hright.
  split; [exact Hleft|]. split; [exact Hright|].
  subst d. apply Qabs_case; intros Hs1; apply Qabs_case; intros Hs2;
    destruct (Qlt_le_dec (rect_x top) (rect_x b)) as [Hlt|Hle];
    try (specialize (Hright (Qlt_le_weak _ _ Hlt)));
    try (specialize (Hleft Hle)); lra.
Qed.

Lemma X5_snap_does_not_overshoot_witness :
  placementGuide (withPlacementGuide offCentre) = true ∧
  ∃ s', snapAssist 2 1 (withPlacementGuide offCentre) = Some s'.
Proof.
  split; [reflexivity|].
  edestruct (X5_snap_does_not_overshoot 2%nat 1%nat 1 (withPlacementGuide offCentre))
    as (s' & b' & Hs' & _).
  - reflexivity.
  - vm_compute. reflexivity.
  - vm_compute. reflexivity.
  - vm_compute. reflexivity.
  - vm_compute. reflexivity.
  - split; vm_compute; discriminate.
  - exists s'. exact Hs'.
Defined.

(** ** The pause button *)

Lemma uiScaleFor_bounds (canvasWidth canvasHeight : Q) :
  MIN_UI_SCALE <= uiScaleFor canvasWidth canvasHeight <= MAX_UI_SCALE.
Proof.
  unfold uiScaleFor, MIN_UI_SCALE, MAX_UI_SCALE. split.
  - apply Q.min_glb; [lra | apply Q.le_max_l].
  - apply Q.le_min_l.
Qed.

(** X6.  Whatever the canvas size, the UI scale lies in [0.8, 1.2], and a
    pointer-down anywhere on the pause button falls in the area the scene's
    handler ignores: it never places a block. *)
Theorem X6_pause_button_never_places (canvasWidth canvasHeight x y rndX rndDir : Q)
    (s : MainScene) :
  onPauseButton (uiScaleFor canvasWidth canvasHeight) (gameWidth s) x y →
  MIN_UI_SCALE <= uiScaleFor canvasWidth canvasHeight <= MAX_UI_SCALE ∧
  inPauseButtonArea (uiScaleFor canvasWidth canvasHeight) (gameWidth s) x y = true ∧
  onPointerDown (uiScaleFor canvasWidth canvasHeight) x y rndX rndDir s = Some s.
Proof.
  intros [Hx Hy].
  pose proof (uiScaleFor_bounds canvasWidth canvasHeight) as Hu.
  split; [exact Hu|].
  unfold MIN_UI_SCALE, MAX_UI_SCALE in Hu.
  set (u := uiScaleFor canvasWidth canvasHeight) in *.
  apply Qabs_Qle_condition in Hx, Hy.
  assert (inPauseButtonArea u (gameWidth s) x y = true) as Harea.
  { unfold inPauseButtonArea. apply andb_true_iff. split.
    - apply Qltb_lt. lra.
    - apply Qgtb_gt. lra. }
  split; [exact Harea|].
  unfold onPointerDown. rewrite Harea. now destruct (isPaused s || gameOver s).
Qed.

Lemma X6_pause_button_never_places_witness :
  onPauseButton (uiScaleFor 800 600) (gameWidth freshGame) 740 60 ∧
  onPointerDown (uiScaleFor 800 600) 740 60 0.5 0.5 freshGame = Some freshGame.
Proof.
  assert (onPauseButton (uiScaleFor 800 600) (gameWidth freshGame) 740 60) as Hon.
  { split; vm_compute; discriminate. }
  split; [exact Hon|].
  apply (X6_pause_button_never_places 800 600 740 60 0.5 0.5 freshGame Hon).
Defined.

(** ** More facts about every game *)

Lemma modify_x_geometry (ref : nat) (f : Q → Q) (s s' : MainScene) :
  modify_x ref f s = Some s' →
  gameHeight s' = gameHeight s ∧ baseY s' = baseY s ∧
  currentVelocity s' = currentVelocity s ∧ moveSpeed s' = moveSpeed s.
Proof.
  unfold modify_x. destruct (rectangles s !! ref); [|discriminate].
  intros [= <-]. repeat split.
Qed.

Lemma bounce_geometry (cur : nat) (config : BlockConfig) (s s' : MainScene) :
  bounce cur config s = Some s' →
  gameHeight s' = gameHeight s ∧ baseY s' = baseY s.
Proof.
  unfold bounce. destruct (rectangles s !! cur) as [b|]; [|discriminate].
  cbn [mbind option_bind].
  destruct (Qgeb _ _); [|destruct (Qle_bool _ _)].
  - destruct (modify_x cur _ s) as [t|] eqn:Ht; [|discriminate].
    apply modify_x_geometry in Ht as (Hh & Hy & _).
    intros [= <-]. scene_simpl. split; assumption.
  - destruct (modify_x cur _ s) as [t|] eqn:Ht; [|discriminate].
    apply modify_x_geometry in Ht as (Hh & Hy & _).
    intros [= <-]. scene_simpl. split; assumption.
  - intros [= <-]. split; reflexivity.
Qed.

Lemma snapAssist_geometry (cur : nat) (deltaTime : Q) (s s' : MainScene) :
  snapAssist cur deltaTime s = Some s' →
  gameHeight s' = gameHeight s ∧ baseY s' = baseY s.
Proof.
  unfold snapAssist. destruct (_ && _); [|intros [= <-]; split; reflexivity].
  destruct (last (stackedBlocks s)) as [lastRef|]; [|discriminate].
  cbn [mbind option_bind].
  destruct (rectangles s !! lastRef) as [lastBlock|]; [|discriminate].
  cbn [mbind option_bind].
  destruct (rectangles s !! cur) as [b|]; [|discriminate].
  cbn [mbind option_bind].
  destruct (Qltb _ _); [|intros [= <-]; split; reflexivity].
  intros H. apply modify_x_geometry in H as (Hh & Hy & _). split; assumption.
Qed.

Lemma followShadow_geometry (cur : nat) (s s' : MainScene) :
  followShadow cur s = Some s' →
  gameHeight s' = gameHeight s ∧ baseY s' = baseY s.
Proof.
  unfold followShadow. destruct (rectangles s !! cur) as [b|]; [|discriminate].
  cbn [mbind option_bind].
  destruct (last (blockShadows s)); intros [= <-]; split; reflexivity.
Qed.

(** A frame leaves the canvas height and the base line alone. *)
Lemma update_geometry (time : Q) (s s' : MainScene) :
  update time s = Some s' →
  gameHeight s' = gameHeight s ∧ baseY s' = baseY s.
Proof.
  unfold update. destruct (idle s); [intros [= <-]; split; reflexivity|].
  destruct (currentBlock s) as [cur|]; [|discriminate].
  cbn [mbind option_bind].
  destruct (moveBlock cur _ _) as [s1|] eqn:H1; [|discriminate].
  cbn [mbind option_bind].
  destruct (getCurrentBlockConfig s1) as [config|]; [|discriminate].
  cbn [mbind option_bind].
  destruct (bounce cur config s1) as [s2|] eqn:H2; [|discriminate].
  cbn [mbind option_bind].
  destruct (snapAssist cur _ s2) as [s3|] eqn:H3; [|discriminate].
  cbn [mbind option_bind]. intros H4.
  unfold moveBlock in H1. apply modify_x_geometry in H1 as (Ha & Hb & _).
  apply bounce_geometry in H2 as (Hc & Hd).
  apply snapAssist_geometry in H3 as (He & Hf).
  apply followShadow_geometry in H4 as (Hg & Hh).
  unfold accelerate in Ha, Hb. scene_simpl.
  split; congruence.
Qed.

Lemma landBlock_inv (cur : nat) (rndX rndDir : Q) (s s' : MainScene) :
  landBlock cur rndX rndDir s = Some s' →
  (8 <= length (stackedBlocks s ++ [cur]))%nat ∧
  s' = set_pendingSpawns (S (pendingSpawns s))
         (set_stackedBlocks (stackedBlocks s ++ [cur]) s)
  ∨ (length (stackedBlocks s ++ [cur]) < 8)%nat ∧
    createNewBlock rndX rndDir (set_stackedBlocks (stackedBlocks s ++ [cur]) s)
    = Some s'.
Proof.
  unfold landBlock. scene_simpl. unfold MIN_BLOCKS_FOR_CAMERA.
  destruct (Nat.leb_spec 8 (length (stackedBlocks s ++ [cur]))) as [Hge|Hlt].
  - intros [= <-]. left. split; [exact Hge | reflexivity].
  - intros H. right. split; [exact Hlt | exact H].
Qed.

Lemma run_app (front back : list Event) (s : MainScene) :
  run (front ++ back) s = (s' ← run front s; run back s').
Proof.
  revert s. induction front as [|e rest IH]; intros s; [reflexivity|].
  cbn [app run]. destruct (step e s) as [t|]; [|reflexivity].
  cbn [mbind option_bind]. apply IH.
Qed.

Lemma layerY_suspended (n : nat) (y : Q) :
  layerY n y → (7 <= n)%nat → layerY (S n) y.
Proof.
  intros [Hexact Habove] Hn. split; [lia|]. intros _. apply Habove, Hn.
Qed.

Lemma layerY_next (n : nat) (y : Q) :
  layerY n y → layerY (S n) (y - BLOCK_BASE_HEIGHT).
Proof.
  intros [Hexact Habove]. unfold BLOCK_BASE_HEIGHT.
  assert (inject_Z (Z.of_nat (S n)) == inject_Z (Z.of_nat n) + 1) as Hs.
  { rewrite Nat2Z.inj_succ. unfold Z.succ. rewrite inject_Z_plus. reflexivity. }
  split.
  - intros Hle. rewrite Hs, Hexact by lia. ring.
  - intros Hge. destruct (Nat.le_gt_cases 7 n) as [H7|H6].
    + specialize (Habove H7). lra.
    + assert (n = 6)%nat as -> by lia. rewrite Hexact by lia.
      apply Qle_bool_iff. reflexivity.
Qed.

Lemma lookup_x_modified (l : list Rectangle) (cur ref : nat) (x : Q)
    (b b0 : Rectangle) :
  l !! cur = Some b → <[cur := rect_set_x x b]> l !! ref = Some b0 →
  ∃ b1, l !! ref = Some b1 ∧ rect_y b1 = rect_y b0 ∧ rect_width b1 = rect_width b0.
Proof.
  intros Hb Hlook. destruct (decide (cur = ref)) as [->|Hne].
  - rewrite (lookup_modified _ _ _ _ Hb) in Hlook. injection Hlook as <-.
    exists b. repeat split. exact Hb.
  - rewrite list_lookup_insert_ne in Hlook by exact Hne.
    exists b0. repeat split. exact Hlook.
Qed.

Lemma createNewBlock_inv_y (rndX rndDir : Q) (s s' : MainScene) :
  createNewBlock rndX rndDir s = Some s' →
  ∃ config y block shadow,
    s' = set_moveSpeed (speed config * (if Qltb rndDir 0.5 then 1 else -1))
           (set_blockShadows (blockShadows s ++ [shadow])
              (set_rectangles (rectangles s ++ [block])
                 (set_currentBlock (Some (length (rectangles s))) s))) ∧
    getCurrentBlockConfig s = Some config ∧ nextBlockY s = Some y ∧
    rect_y block = y ∧
    rect_x block = Between (width config / 2) (gameWidth s - width config / 2) rndX.
Proof.
  unfold createNewBlock, nextBlockY. intros H.
  destruct (getCurrentBlockConfig s) as [config|]; [|discriminate].
  cbn [mbind option_bind] in H.
  match type of H with (?m ≫= _) = _ => destruct m as [y|] end; [|discriminate].
  injection H as <-. eexists config, y, _, _.
  split; [reflexivity|]. repeat split.
Qed.

Lemma nextBlockY_layer (s : MainScene) (y : Q) :
  baseY s == 500 →
  (∀ i ref b, stackedBlocks s !! i = Some ref → rectangles s !! ref = Some b →
     layerY i (rect_y b)) →
  nextBlockY s = Some y → layerY (length (stackedBlocks s)) y.
Proof.
  intros Hbase Hstack. unfold nextBlockY.
  destruct (last (stackedBlocks s)) as [lastRef|] eqn:Hlast.
  - apply last_Some in Hlast as [front Hfront]. rewrite Hfront in *.
    destruct (rectangles s !! lastRef) as [lastBlock|] eqn:Hlook; [|discriminate].
    intros [= <-]. rewrite length_app, Nat.add_1_r. apply layerY_next.
    eapply Hstack; [|exact Hlook]. apply list_lookup_middle. reflexivity.
  - apply last_None in Hlast. rewrite Hlast. intros [= <-]. split.
    + intros _. rewrite Hbase. reflexivity.
    + cbn. lia.
Qed.

Lemma createNewBlock_Bounds (rndX rndDir : Q) (s s' : MainScene) :
  Forall (λ ref, ref < length (rectangles s))%nat (stackedBlocks s) →
  - MAX_BLOCK_SPEED <= currentVelocity s <= MAX_BLOCK_SPEED →
  (0 <= perfectStreak s)%Z → (0 <= score s)%Z →
  gameHeight s = canvas_height → baseY s == 500 →
  (∀ i ref b, stackedBlocks s !! i = Some ref → rectangles s !! ref = Some b →
     layerY i (rect_y b)) →
  (∀ h, localStorage s = StorageAvailable (Some h) → highScore s = h) →
  createNewBlock rndX rndDir s = Some s' → Bounds s'.
Proof.
  intros Hvalid Hv Hstreak Hscore Hheight Hbase Hstack Hloaded Hnew.
  apply createNewBlock_inv_y in Hnew
    as (config & y & block & shadow & -> & _ & Hy & Hblock & _).
  pose proof (nextBlockY_layer s y Hbase Hstack Hy) as Hlayer.
  split; scene_simpl; try assumption.
  - intros i ref b Hi Hb. rewrite Forall_lookup in Hvalid.
    rewrite lookup_app_l in Hb by (eapply Hvalid, Hi). eapply Hstack; eauto.
  - intros cur b [= <-] Hb. rewrite list_lookup_middle in Hb by reflexivity.
    injection Hb as <-. rewrite Hblock. exact Hlayer.
Qed.

Lemma update_Bounds (time : Q) (s s' : MainScene) :
  Invariant s → Bounds s → update time s = Some s' → Bounds s'.
Proof.
  intros Hinv Hbnd Hup. pose proof (update_geometry time s s' Hup) as [Hgh Hby].
  destruct (idle s) eqn:Hidle.
  { unfold update in Hup. rewrite Hidle in Hup. now injection Hup as <-. }
  apply Playing_not_idle in Hidle.
  destruct (inv_current s Hinv) as (cur & b & Hcur & Hb & Hw).
  destruct (update_playing time s cur b firstLevelConfig _ _ _ _ Hidle Hcur Hb
              (Invariant_config s Hinv) (inv_guide s Hinv)
              eq_refl eq_refl eq_refl eq_refl)
    as (t & x' & Ht & Hkeep & Hrect & Hcase).
  rewrite Hup in Ht. injection Ht as <-.
  destruct Hkeep as (Hc & Hst & Hsc & Hhs & _ & Hps & _ & _ & _ & _ & Hls & _).
  split.
  - set (v := Clamp _ _ _) in Hcase.
    assert (- MAX_BLOCK_SPEED <= v <= MAX_BLOCK_SPEED) as Hv
      by (apply Clamp_bounds; unfold MAX_BLOCK_SPEED; lra).
    destruct (Qgeb _ _); [|destruct (Qle_bool _ _)];
      destruct Hcase as (_ & -> & _);
      first [apply velocity_after_bounce, Hv | exact Hv].
  - rewrite Hps. apply Hbnd.
  - rewrite Hsc. apply Hbnd.
  - rewrite Hgh. apply Hbnd.
  - rewrite Hby. apply Hbnd.
  - intros i ref b0. rewrite Hst, Hrect. intros Hi Hb0.
    destruct (lookup_x_modified _ _ _ _ _ _ Hb Hb0) as (b1 & Hb1 & <- & _).
    eapply (bnd_stackY s Hbnd); eauto.
  - intros cur' b0. rewrite Hc, Hst, Hrect. intros Hcur' Hb0.
    destruct (lookup_x_modified _ _ _ _ _ _ Hb Hb0) as (b1 & Hb1 & <- & _).
    eapply (bnd_currentY s Hbnd); eauto.
  - intros h. rewrite Hls, Hhs. apply Hbnd.
Qed.

Lemma handlePerfectPlacement_Bounds (s : MainScene) :
  Bounds s → Bounds (handlePerfectPlacement s).
Proof.
  intros Hbnd. pose proof (bnd_streak s Hbnd). pose proof (bnd_score s Hbnd).
  split; unfold handlePerfectPlacement; scene_simpl; try apply Hbnd.
  - lia.
  - unfold MAX_MULTIPLIER. lia.
Qed.

Lemma landBlock_Bounds (cur : nat) (rndX rndDir : Q) (s s' : MainScene) :
  Invariant s → Bounds s → currentBlock s = Some cur →
  landBlock cur rndX rndDir s = Some s' → Bounds s'.
Proof.
  intros Hinv Hbnd Hcur Hland.
  destruct (inv_current s Hinv) as (cur' & b & Hcur' & Hb & Hw).
  rewrite Hcur in Hcur'. injection Hcur' as <-.
  pose proof (bnd_currentY s Hbnd cur b Hcur Hb) as Hlayer.
  assert (∀ i ref b0, (stackedBlocks s ++ [cur]) !! i = Some ref →
            rectangles s !! ref = Some b0 → layerY i (rect_y b0)) as Hstack.
  { intros i ref b0 Hi Hb0. apply lookup_app_Some in Hi as [Hi|[Hge Hi]].
    - eapply (bnd_stackY s Hbnd); eauto.
    - apply list_lookup_singleton_Some in Hi as [Hi <-].
      rewrite Hb in Hb0. injection Hb0 as <-.
      replace i with (length (stackedBlocks s)) by lia. exact Hlayer. }
  apply landBlock_inv in Hland as [[Hlen ->]|[Hlen Hnew]].
  - split; scene_simpl; try apply Hbnd; [exact Hstack|].
    intros cur' b0 Hcur'. rewrite Hcur in Hcur'. injection Hcur' as <-.
    rewrite Hb. intros [= <-]. rewrite length_app, Nat.add_1_r in *.
    apply layerY_suspended; [exact Hlayer | lia].
  - eapply createNewBlock_Bounds, Hnew; scene_simpl; try apply Hbnd; [|exact Hstack].
    apply Forall_app. split; [apply Hinv|]. apply Forall_singleton.
    eapply lookup_lt_Some, Hb.
Qed.

Lemma placeBlock_Bounds (rndX rndDir : Q) (s s' : MainScene) :
  Invariant s → Bounds s → placeBlock rndX rndDir s = Some s' → Bounds s'.
Proof.
  intros Hinv Hbnd Hplace. destruct (idle s) eqn:Hidle.
  { unfold placeBlock in Hplace. rewrite Hidle in Hplace. now injection Hplace as <-. }
  apply Playing_not_idle in Hidle.
  destruct (inv_current s Hinv) as (cur & b & Hcur & Hb & Hw).
  destruct (placeBlock_judged rndX rndDir s cur b firstLevelConfig Hidle Hcur Hb
              (Invariant_config s Hinv) (inv_stack s Hinv)) as (t & Ht & Hcase).
  rewrite Hplace in Ht. injection Ht as <-.
  destruct (last (stackedBlocks s)) as [topRef|].
  - destruct Hcase as (top & _ & Hcase).
    destruct (Qgtb _ _).
    + subst s'. split; apply Hbnd.
    + destruct (Qltb _ _).
      * eapply landBlock_Bounds, Hcase;
          [apply handlePerfectPlacement_invariant, Hinv
          | apply handlePerfectPlacement_Bounds, Hbnd | exact Hcur].
      * eapply landBlock_Bounds, Hcase; [exact Hinv | exact Hbnd | exact Hcur].
  - eapply landBlock_Bounds, Hcase; [exact Hinv | exact Hbnd | exact Hcur].
Qed.

Lemma create_init_Bounds (rndX rndDir : Q) (s s' : MainScene) :
  - MAX_BLOCK_SPEED <= currentVelocity s <= MAX_BLOCK_SPEED →
  (0 <= perfectStreak s)%Z →
  create rndX rndDir (init s) = Some s' → Bounds s'.
Proof.
  intros Hv Hstreak. unfold create.
  apply createNewBlock_Bounds; unfold init; scene_simpl;
    destruct (localStorage s) as [|[saved|]] eqn:Hst; scene_simpl;
    try rewrite Hst;
    first [ apply Forall_nil_2 | exact Hv | exact Hstreak | reflexivity
          | (apply Qeq_bool_iff; reflexivity)
          | (intros i ref b Hi; rewrite lookup_nil in Hi; discriminate Hi)
          | (intros h [= <-]; reflexivity)
          | (intros h Hh; discriminate Hh) ].
Qed.

Lemma step_Bounds (e : Event) (s s' : MainScene) :
  Invariant s → Bounds s → step e s = Some s' → Bounds s'.
Proof.
  intros Hinv Hbnd.
  destruct e as [time|rndX rndDir|rndX rndDir| |rndX rndDir]; cbn [step].
  - apply update_Bounds; assumption.
  - destruct (isPaused s || gameOver s).
    + now intros [= <-].
    + apply placeBlock_Bounds; assumption.
  - unfold delayedSpawn. destruct (pendingSpawns s) as [|n].
    + now intros [= <-].
    + apply createNewBlock_Bounds; scene_simpl; apply Hbnd || apply Hinv.
  - intros [= <-]. split; apply Hbnd.
  - destruct (gameOver s).
    + unfold restart. apply create_init_Bounds; scene_simpl; apply Hbnd.
    + now intros [= <-].
Qed.

Lemma run_Bounds (events : list Event) (s s' : MainScene) :
  Invariant s → Bounds s → run events s = Some s' → Bounds s'.
Proof.
  revert s. induction events as [|e rest IH]; intros s Hinv Hbnd; cbn [run].
  - now intros [= <-].
  - destruct (step e s) as [t|] eqn:Hstep; [|discriminate].
    cbn [mbind option_bind].
    apply IH; [eapply step_invariant | eapply step_Bounds]; eauto.
Qed.

Lemma start_Bounds (storage : Storage) (rndX rndDir : Q) (s0 : MainScene) :
  start storage rndX rndDir = Some s0 → Bounds s0.
Proof.
  unfold start. apply create_init_Bounds.
  - change (currentVelocity (constructed storage)) with 0.
    unfold MAX_BLOCK_SPEED. lra.
  - change (perfectStreak (constructed storage)) with 0%Z. lia.
Qed.

Lemma reachable_Bounds (s : MainScene) : reachable s → Bounds s.
Proof.
  intros (storage & rndX & rndDir & events & s0 & Hstart & Hrun).
  eapply run_Bounds, Hrun.
  - eapply start_invariant, Hstart.
  - eapply start_Bounds, Hstart.
Qed.

(** ** The tower, the camera and the play area *)

(** X7.  At every point of every game, restarts included, the velocity lies
    within [-MAX_BLOCK_SPEED, MAX_BLOCK_SPEED], and neither the score nor the
    perfect streak is negative. *)
Theorem X7_velocity_score_streak_bounds (s : MainScene) :
  reachable s →
  - MAX_BLOCK_SPEED <= currentVelocity s <= MAX_BLOCK_SPEED ∧
  (0 <= score s)%Z ∧ (0 <= perfectStreak s)%Z.
Proof.
  intros Hreach. apply reachable_Bounds in Hreach.
  split; [apply Hreach|]. split; apply Hreach.
Qed.

Lemma X7_velocity_score_streak_bounds_witness :
  reachable lostGame ∧
  - MAX_BLOCK_SPEED <= currentVelocity lostGame <= MAX_BLOCK_SPEED.
Proof.
  assert (reachable lostGame) as Hreach.
  { exists (StorageAvailable None), 0.5, 0.5,
      [PlaceCommit 0.5 0.5; Frame 1000; Frame 1016.667;
       PlaceCommit 0 0.5; PlaceCommit 0 0], freshGame.
    split; vm_compute; reflexivity. }
  split; [exact Hreach|].
  apply (X7_velocity_score_streak_bounds lostGame Hreach).
Defined.

(** X8.  In every game the first eight layers of the tower sit exactly one
    block height apart, layer i at y = 500 - 50 * i (the first block on the
    base line, 100 above the bottom of the 600-high canvas); every higher
    layer is at y <= 150. *)
Theorem X8_tower_layers (s : MainScene) (i ref : nat) (b : Rectangle) :
  reachable s →
  stackedBlocks s !! i = Some ref → rectangles s !! ref = Some b →
  ((i <= 7)%nat → rect_y b == 500 - 50 * inject_Z (Z.of_nat i)) ∧
  ((7 <= i)%nat → rect_y b <= 150).
Proof.
  intros Hreach Hi Hb. apply reachable_Bounds in Hreach.
  exact (bnd_stackY s Hreach i ref b Hi Hb).
Qed.

Lemma X8_tower_layers_witness :
  reachable offCentre ∧
  ∃ b, rectangles offCentre !! 1%nat = Some b ∧ rect_y b == 450.
Proof.
  assert (reachable offCentre) as Hreach.
  { exists (StorageAvailable None), 0.5, 0.5,
      [PlaceCommit 0.5 0.5; PlaceCommit 0.51 0.5], freshGame.
    split; vm_compute; reflexivity. }
  split; [exact Hreach|].
  eexists. split; [vm_compute; reflexivity|].
  edestruct (X8_tower_layers offCentre 1%nat 1%nat) as [Hexact _].
  - exact Hreach.
  - vm_compute. reflexivity.
  - vm_compute. reflexivity.
  - rewrite Hexact by lia. vm_compute. reflexivity.
Defined.

(** X9.  In every game [createNewBlock] starts a camera pan exactly when at
    least 8 blocks are stacked (on the 600-high canvas the test on the
    visible stack height then always passes), and the target of every pan it
    starts is y = 0: the new block is at y <= 150, so [y - 0.3 * 600] is
    negative and [Math.max(0, ...)] answers 0. *)
Theorem X9_camera_pan_target (s : MainScene) (y : Q) :
  reachable s → nextBlockY s = Some y →
  ((length (stackedBlocks s) < 8)%nat → cameraPanTarget y s = None) ∧
  ((8 <= length (stackedBlocks s))%nat →
   ∃ target, cameraPanTarget y s = Some target ∧ target == 0).
Proof.
  intros Hreach Hy. apply reachable_Bounds in Hreach.
  pose proof (nextBlockY_layer s y (bnd_baseY s Hreach) (bnd_stackY s Hreach) Hy)
    as [_ Habove].
  unfold cameraPanTarget, MIN_BLOCKS_FOR_CAMERA.
  rewrite (bnd_gameHeight s Hreach). unfold canvas_height, BLOCK_BASE_HEIGHT.
  split; intros Hlen.
  - destruct (Nat.leb_spec 8 (length (stackedBlocks s))); [lia | reflexivity].
  - destruct (Nat.leb_spec 8 (length (stackedBlocks s))); [|lia].
    specialize (Habove ltac:(lia)).
    assert (9 <= inject_Z (Z.of_nat (length (stackedBlocks s) + 1))) as Hn
      by (change 9 with (inject_Z 9); rewrite <- Zle_Qle; lia).
    assert (Qgtb (inject_Z (Z.of_nat (length (stackedBlocks s) + 1)) * 50)
                 (600 * 0.6) = true) as -> by (apply Qgtb_gt; lra).
    eexists. split; [reflexivity|]. apply Q.max_l. lra.
Qed.

Lemma X9_camera_pan_target_witness :
  reachable (sceneAfter eightCommits) ∧
  ∃ y target, nextBlockY (sceneAfter eightCommits) = Some y ∧
    cameraPanTarget y (sceneAfter eightCommits) = Some target ∧ target == 0.
Proof.
  assert (reachable (sceneAfter eightCommits)) as Hreach.
  { exists (StorageAvailable None), 0.5, 0.5, eightCommits, freshGame.
    split; vm_compute; reflexivity. }
  split; [exact Hreach|].
  assert (nextBlockY (sceneAfter eightCommits) = Some (500 - 50 - 50 - 50 - 50 - 50 - 50 - 50 - 50))
    as Hy.
  { vm_compute. reflexivity. }
  eexists.
  destruct (X9_camera_pan_target (sceneAfter eightCommits) _ Hreach Hy) as [_ Hpan].
  destruct Hpan as (target & Ht & H0); [vm_compute; lia|].
  exists target. split; [exact Hy|]. split; [exact Ht | exact H0].
Defined.

Lemma isDraw_spec (r : Q) : isDraw r = true ↔ 0 <= r < 1.
Proof.
  unfold isDraw. rewrite andb_true_iff, Qle_bool_iff, Qltb_lt. reflexivity.
Qed.

(** [Phaser.Math.Between] on integer bounds answers an integer within them. *)
Lemma Between_range (lo hi : Z) (rnd : Q) :
  (lo <= hi)%Z → 0 <= rnd < 1 →
  inject_Z lo <= Between (inject_Z lo) (inject_Z hi) rnd <= inject_Z hi.
Proof.
  intros Hle [H0 H1]. unfold Between.
  assert (inject_Z lo <= inject_Z hi) as Hq by (rewrite <- Zle_Qle; exact Hle).
  set (v := rnd * (inject_Z hi - inject_Z lo + 1) + inject_Z lo).
  assert (0 <= rnd * (inject_Z hi - inject_Z lo + 1)) as Hp
    by (apply Qmult_le_0_compat; lra).
  assert ((1 - rnd) * (inject_Z hi - inject_Z lo + 1) > 0) as Hr
    by (apply Qmult_lt_0_compat; lra).
  assert (inject_Z lo <= v) as Hlo by (unfold v; lra).
  assert (v < inject_Z (hi + 1)) as Hhi
    by (rewrite inject_Z_plus; unfold v; change (inject_Z 1) with 1; lra).
  split.
  - rewrite <- Zle_Qle. rewrite <- (Qfloor_Z lo). apply Qfloor_resp_le, Hlo.
  - rewrite <- Zle_Qle.
    assert (inject_Z (Qfloor v) < inject_Z (hi + 1)) as Hf
      by (eapply Qle_lt_trans; [apply Qfloor_le | exact Hhi]).
    rewrite <- Zlt_Qlt in Hf. lia.
Qed.

Lemma spawn_x_range (rnd : Q) :
  0 <= rnd < 1 →
  50 <= Between (width firstLevelConfig / 2)
          (canvas_width - width firstLevelConfig / 2) rnd <= 750.
Proof.
  intros Hr. pose proof (Between_range 50 750 rnd ltac:(lia) Hr) as H.
  unfold Between in *.
  assert (rnd * (canvas_width - width firstLevelConfig / 2
                 - width firstLevelConfig / 2 + 1) + width firstLevelConfig / 2
          == rnd * (inject_Z 750 - inject_Z 50 + 1) + inject_Z 50) as Heq.
  { assert (width firstLevelConfig / 2 == 50) as -> by reflexivity.
    assert (canvas_width - 50 == 750) as -> by reflexivity.
    reflexivity. }
  rewrite (Qfloor_comp _ _ Heq). exact H.
Qed.

Lemma createNewBlock_inside (rndX rndDir : Q) (s s' : MainScene) :
  level s = 1%Z → gameWidth s = canvas_width → isDraw rndX = true →
  insidePlayArea s → createNewBlock rndX rndDir s = Some s' → insidePlayArea s'.
Proof.
  intros Hl Hw Hdraw Hin Hnew.
  apply createNewBlock_inv_y in Hnew
    as (config & y & block & shadow & -> & Hc & _ & _ & Hx).
  rewrite (getCurrentBlockConfig_level_1 s Hl) in Hc. injection Hc as <-.
  unfold insidePlayArea. scene_simpl. apply Forall_app. split; [exact Hin|].
  apply Forall_singleton. rewrite Hx, Hw.
  apply spawn_x_range, isDraw_spec, Hdraw.
Qed.

Lemma update_inside (time : Q) (s s' : MainScene) :
  Invariant s → insidePlayArea s → update time s = Some s' → insidePlayArea s'.
Proof.
  intros Hinv Hin Hup. destruct (idle s) eqn:Hidle.
  { unfold update in Hup. rewrite Hidle in Hup. now injection Hup as <-. }
  apply Playing_not_idle in Hidle.
  destruct (inv_current s Hinv) as (cur & b & Hcur & Hb & Hw).
  destruct (update_playing time s cur b firstLevelConfig _ _ _ _ Hidle Hcur Hb
              (Invariant_config s Hinv) (inv_guide s Hinv)
              eq_refl eq_refl eq_refl eq_refl)
    as (t & x' & Ht & _ & Hrect & Hcase).
  rewrite Hup in Ht. injection Ht as <-.
  unfold insidePlayArea. rewrite Hrect. apply Forall_insert; [exact Hin|].
  scene_simpl. rewrite (inv_gameWidth s Hinv) in Hcase.
  change (width firstLevelConfig) with 100 in Hcase. unfold canvas_width in Hcase.
  destruct (Qgeb _ _) eqn:Hright; [|destruct (Qle_bool _ _) eqn:Hleft];
    destruct Hcase as (-> & _).
  - split; apply Qle_bool_iff; reflexivity.
  - split; apply Qle_bool_iff; reflexivity.
  - apply Qgeb_lt in Hright. apply Qle_bool_gt in Hleft.
    assert (100 / 2 == 50) as Hhalf by reflexivity.
    rewrite Hhalf in Hright, Hleft. lra.
Qed.

Lemma landBlock_inside (cur : nat) (rndX rndDir : Q) (s s' : MainScene) :
  level s = 1%Z → gameWidth s = canvas_width → isDraw rndX = true →
  insidePlayArea s → landBlock cur rndX rndDir s = Some s' → insidePlayArea s'.
Proof.
  intros Hl Hw Hdraw Hin Hland.
  apply landBlock_inv in Hland as [[_ ->]|[_ Hnew]]; [exact Hin|].
  eapply createNewBlock_inside, Hnew; assumption.
Qed.

Lemma placeBlock_inside (rndX rndDir : Q) (s s' : MainScene) :
  Invariant s → isDraw rndX = true →
  insidePlayArea s → placeBlock rndX rndDir s = Some s' → insidePlayArea s'.
Proof.
  intros Hinv Hdraw Hin Hplace. destruct (idle s) eqn:Hidle.
  { unfold placeBlock in Hplace. rewrite Hidle in Hplace. now injection Hplace as <-. }
  apply Playing_not_idle in Hidle.
  destruct (inv_current s Hinv) as (cur & b & Hcur & Hb & Hw).
  destruct (placeBlock_judged rndX rndDir s cur b firstLevelConfig Hidle Hcur Hb
              (Invariant_config s Hinv) (inv_stack s Hinv)) as (t & Ht & Hcase).
  rewrite Hplace in Ht. injection Ht as <-.
  destruct (last (stackedBlocks s)) as [topRef|].
  - destruct Hcase as (top & _ & Hcase).
    destruct (Qgtb _ _); [subst s'; exact Hin|].
    destruct (Qltb _ _);
      (eapply landBlock_inside, Hcase; [apply Hinv | apply Hinv | exact Hdraw | exact Hin]).
  - eapply landBlock_inside, Hcase; [apply Hinv | apply Hinv | exact Hdraw | exact Hin].
Qed.

Lemma create_init_inside (rndX rndDir : Q) (s s' : MainScene) :
  isDraw rndX = true → insidePlayArea s →
  create rndX rndDir (init s) = Some s' → insidePlayArea s'.
Proof.
  intros Hdraw Hin. unfold create.
  apply createNewBlock_inside; unfold init; scene_simpl;
    destruct (localStorage s) as [|[saved|]]; scene_simpl;
    first [reflexivity | exact Hdraw | exact Hin].
Qed.

Lemma step_inside (e : Event) (s s' : MainScene) :
  Invariant s → fairEvent e = true → insidePlayArea s →
  step e s = Some s' → insidePlayArea s'.
Proof.
  intros Hinv Hfair Hin.
  destruct e as [time|rndX rndDir|rndX rndDir| |rndX rndDir]; cbn [step];
    cbn [fairEvent] in Hfair; try apply andb_true_iff in Hfair as [Hdraw _].
  - apply update_inside; assumption.
  - destruct (isPaused s || gameOver s); [now intros [= <-]|].
    apply placeBlock_inside; assumption.
  - unfold delayedSpawn. destruct (pendingSpawns s) as [|n]; [now intros [= <-]|].
    apply createNewBlock_inside; scene_simpl; try apply Hinv; assumption.
  - now intros [= <-].
  - destruct (gameOver s); [|now intros [= <-]].
    unfold restart. apply create_init_inside; assumption.
Qed.

Lemma reachableFair_reachable (s : MainScene) : reachableFair s → reachable s.
Proof.
  intros (storage & rndX & rndDir & events & s0 & _ & _ & Hstart & _ & Hrun).
  exists storage, rndX, rndDir, events, s0. split; assumption.
Qed.

Lemma run_inside (events : list Event) (s s' : MainScene) :
  Invariant s → forallb fairEvent events = true → insidePlayArea s →
  run events s = Some s' → insidePlayArea s'.
Proof.
  revert s. induction events as [|e rest IH]; intros s Hinv Hfair Hin; cbn [run].
  - now intros [= <-].
  - cbn [forallb] in Hfair. apply andb_true_iff in Hfair as [He Hrest].
    destruct (step e s) as [t|] eqn:Hstep; [|discriminate].
    cbn [mbind option_bind].
    apply IH; [eapply step_invariant; eauto | exact Hrest | eapply step_inside; eauto].
Qed.

Lemma start_inside (storage : Storage) (rndX rndDir : Q) (s0 : MainScene) :
  isDraw rndX = true → start storage rndX rndDir = Some s0 → insidePlayArea s0.
Proof.
  intros Hdraw. unfold start. apply create_init_inside; [exact Hdraw|].
  apply Forall_nil_2.
Qed.

(** X10.  In a game whose random draws are [Math.random()] results (in
    [0, 1)), every block ever made, stacked or in flight, has its centre
    within [50, 750] at every point of the game: the spawn position and the
    bounce both keep the 100-wide block inside the 800-wide canvas. *)
Theorem X10_blocks_inside_play_area (s : MainScene) (ref : nat) (b : Rectangle) :
  reachableFair s → rectangles s !! ref = Some b →
  50 <= rect_x b <= 750.
Proof.
  intros Hfair Hb.
  destruct Hfair as (storage & rndX & rndDir & events & s0 & HdX & _ & Hstart & Hev & Hrun).
  pose proof (start_invariant storage rndX rndDir s0 Hstart) as Hinv0.
  pose proof (start_inside storage rndX rndDir s0 HdX Hstart) as Hin0.
  pose proof (run_inside events s0 s Hinv0 Hev Hin0 Hrun) as Hin.
  unfold insidePlayArea in Hin. rewrite Forall_lookup in Hin.
  exact (Hin ref b Hb).
Qed.

Lemma X10_blocks_inside_play_area_witness :
  reachableFair offCentre ∧
  ∃ b, rectangles offCentre !! 2%nat = Some b ∧ 50 <= rect_x b <= 750.
Proof.
  assert (reachableFair offCentre) as Hfair.
  { exists (StorageAvailable None), 0.5, 0.5,
      [PlaceCommit 0.5 0.5; PlaceCommit 0.51 0.5], freshGame.
    repeat apply conj; vm_compute; reflexivity. }
  split; [exact Hfair|].
  eexists. split; [vm_compute; reflexivity|].
  eapply (X10_blocks_inside_play_area offCentre 2%nat); [exact Hfair|].
  vm_compute. reflexivity.
Defined.

(** ** Pausing, losing and restarting *)

Lemma step_passive_idle (e : Event) (s : MainScene) :
  isPaused s = true ∨ gameOver s = true → passiveEvent e = true →
  step e s = Some s.
Proof.
  intros Hidle Hpassive.
  destruct e as [time|rndX rndDir|rndX rndDir| |rndX rndDir]; try discriminate;
    cbn [step].
  - unfold update, idle. destruct Hidle as [-> | ->]; [|reflexivity].
    now rewrite !orb_true_r.
  - destruct Hidle as [-> | ->]; [reflexivity | now rewrite orb_true_r].
Qed.

Lemma run_passive_idle (events : list Event) (s : MainScene) :
  isPaused s = true ∨ gameOver s = true → forallb passiveEvent events = true →
  run events s = Some s.
Proof.
  intros Hidle. induction events as [|e rest IH]; [reflexivity|].
  cbn [forallb run]. intros [He Hrest]%andb_true_iff.
  rewrite (step_passive_idle e s Hidle He). cbn [mbind option_bind].
  apply IH, Hrest.
Qed.

Lemma togglePause_twice (s : MainScene) : togglePause (togglePause s) = s.
Proof. unfold togglePause. destruct s. scene_simpl. now rewrite negb_involutive. Qed.

(** X11.  Pausing is lossless: between a pause and the un-pause, frames and
    placement commits change nothing, so the scene that resumes is exactly
    the scene that was paused, the frame clock included (the first frame
    after the pause therefore spans the whole pause). *)
Theorem X11_pause_resume_round_trip (events : list Event) (s : MainScene) :
  isPaused s = false → forallb passiveEvent events = true →
  run (PauseToggle :: events ++ [PauseToggle]) s = Some s.
Proof.
  intros Hrunning Hpassive. cbn [run step mbind option_bind].
  rewrite run_app, (run_passive_idle events (togglePause s)); [|left|exact Hpassive].
  - cbn [run step mbind option_bind]. now rewrite togglePause_twice.
  - unfold togglePause. scene_simpl. now rewrite Hrunning.
Qed.

Lemma X11_pause_resume_round_trip_witness :
  isPaused stackedOnce = false ∧
  run (PauseToggle :: [Frame 1000; PlaceCommit 0.5 0.5; Frame 5000] ++ [PauseToggle])
    stackedOnce = Some stackedOnce.
Proof.
  assert (isPaused stackedOnce = false) as Hrunning by (vm_compute; reflexivity).
  split; [exact Hrunning|].
  apply (X11_pause_resume_round_trip [Frame 1000; PlaceCommit 0.5 0.5; Frame 5000]
           stackedOnce Hrunning).
  reflexivity.
Defined.

Lemma step_over (e : Event) (s s' : MainScene) :
  gameOver s = true → withinGame e = true → step e s = Some s' →
  gameOver s' = true ∧ score s' = score s ∧ stackedBlocks s' = stackedBlocks s ∧
  perfectStreak s' = perfectStreak s ∧ highScore s' = highScore s.
Proof.
  intros Hover Hgame.
  destruct e as [time|rndX rndDir|rndX rndDir| |rndX rndDir]; try discriminate;
    cbn [step].
  - rewrite (step_passive_idle (Frame time) s (or_intror Hover) eq_refl : update time s = Some s).
    intros [= <-]. repeat split; assumption.
  - rewrite Hover, orb_true_r. intros [= <-]. repeat split; assumption.
  - unfold delayedSpawn. destruct (pendingSpawns s) as [|n].
    + intros [= <-]. repeat split; assumption.
    + intros H. apply createNewBlock_keeps in H as (Hkeep & Hstack & _).
      destruct Hkeep as (Hsc & Hhs & _ & Hps & Hgo & _). scene_simpl.
      repeat split; congruence.
  - intros [= <-]. repeat split; assumption.
Qed.

(** X12.  Game over is final until a restart: whatever frames, commits, pause
    toggles and delayed spawns follow, the game stays over and the score, the
    stack, the streak and the high score stay as they were; frames and
    commits alone leave the whole scene untouched. *)
Theorem X12_game_over_is_frozen (events : list Event) (s : MainScene) :
  reachable s → gameOver s = true → forallb withinGame events = true →
  (∃ s', run events s = Some s' ∧
     gameOver s' = true ∧ score s' = score s ∧
     stackedBlocks s' = stackedBlocks s ∧ perfectStreak s' = perfectStreak s ∧
     highScore s' = highScore s) ∧
  (forallb passiveEvent events = true → run events s = Some s).
Proof.
  intros Hreach Hover Hgame. split.
  - apply reachable_invariant in Hreach.
    destruct (run_total events s Hreach) as [s' Hrun]. exists s'.
    split; [exact Hrun|]. clear Hreach.
    revert s Hover Hrun. induction events as [|e rest IH]; intros s Hover Hrun.
    + injection Hrun as <-. repeat split; assumption.
    + cbn [forallb] in Hgame. apply andb_true_iff in Hgame as [He Hrest].
      cbn [run] in Hrun. destruct (step e s) as [t|] eqn:Hstep; [|discriminate].
      cbn [mbind option_bind] in Hrun.
      destruct (step_over e s t Hover He Hstep) as (Ho & Hsc & Hst & Hps & Hhs).
      destruct (IH Hrest t Ho Hrun) as (? & ? & ? & ? & ?).
      repeat split; congruence.
  - apply run_passive_idle. right. exact Hover.
Qed.

Lemma X12_game_over_is_frozen_witness :
  reachable lostGame ∧ gameOver lostGame = true ∧
  run [Frame 2000; PlaceCommit 0.5 0.5] lostGame = Some lostGame.
Proof.
  assert (reachable lostGame) as Hreach.
  { exists (StorageAvailable None), 0.5, 0.5,
      [PlaceCommit 0.5 0.5; Frame 1000; Frame 1016.667;
       PlaceCommit 0 0.5; PlaceCommit 0 0], freshGame.
    split; vm_compute; reflexivity. }
  assert (gameOver lostGame = true) as Hover by (vm_compute; reflexivity).
  split; [exact Hreach|]. split; [exact Hover|].
  destruct (X12_game_over_is_frozen [Frame 2000; PlaceCommit 0.5 0.5] lostGame
              Hreach Hover eq_refl) as [_ Hsame].
  apply Hsame. reflexivity.
Defined.

Lemma step_stack (e : Event) (s s' : MainScene) :
  Invariant s → withinGame e = true → step e s = Some s' →
  ∃ added, stackedBlocks s' = stackedBlocks s ++ added.
Proof.
  intros Hinv Hgame Hstep.
  destruct e as [time|rndX rndDir|rndX rndDir| |rndX rndDir]; cbn [step] in Hstep.
  - apply (update_keeps _ _ _ Hinv) in Hstep.
    destruct Hstep as (_ & -> & _). exists []. now rewrite app_nil_r.
  - destruct (isPaused s || gameOver s).
    { injection Hstep as <-. exists []. now rewrite app_nil_r. }
    destruct (idle s) eqn:Hidle.
    { unfold placeBlock in Hstep. rewrite Hidle in Hstep. injection Hstep as <-.
      exists []. now rewrite app_nil_r. }
    apply Playing_not_idle in Hidle.
    destruct (inv_current s Hinv) as (cur & active & Hcur & Hactive & Hw).
    destruct (placeBlock_in_game rndX rndDir s cur active Hinv Hidle Hcur Hactive)
      as (t & Ht & Hcase).
    rewrite Hstep in Ht. injection Ht as <-.
    destruct (last (stackedBlocks s)) as [topRef|].
    + destruct Hcase as (top & _ & Hcase).
      destruct (Qgtb _ _).
      * subst s'. exists []. now rewrite app_nil_r.
      * destruct (Qltb _ _); apply landBlock_keeps in Hcase as (_ & ->);
          exists [cur]; reflexivity.
    + apply landBlock_keeps in Hcase as (_ & ->). exists [cur]. reflexivity.
  - unfold delayedSpawn in Hstep. destruct (pendingSpawns s) as [|n].
    + injection Hstep as <-. exists []. now rewrite app_nil_r.
    + apply createNewBlock_keeps in Hstep as (_ & -> & _). exists [].
      now rewrite app_nil_r.
  - injection Hstep as <-. exists []. now rewrite app_nil_r.
  - discriminate Hgame.
Qed.

Lemma run_growth (events : list Event) (s s' : MainScene) :
  Invariant s → Bounds s → forallb withinGame events = true →
  run events s = Some s' →
  (∃ added, stackedBlocks s' = stackedBlocks s ++ added) ∧
  (score s <= score s')%Z ∧ (perfectStreak s <= perfectStreak s')%Z.
Proof.
  revert s. induction events as [|e rest IH]; intros s Hinv Hbnd Hgame Hrun.
  - injection Hrun as <-. split; [exists []; now rewrite app_nil_r | lia].
  - cbn [forallb] in Hgame. apply andb_true_iff in Hgame as [He Hrest].
    cbn [run] in Hrun. destruct (step e s) as [t|] eqn:Hstep; [|discriminate].
    cbn [mbind option_bind] in Hrun.
    destruct (IH t (step_invariant e s t Hinv Hstep) (step_Bounds e s t Hinv Hbnd Hstep)
                Hrest Hrun) as ((added & Hadded) & Hscore & Hstreak).
    destruct (step_stack e s t Hinv He Hstep) as (first & Hfirst).
    destruct (step_score e s t Hinv He Hstep) as (Hsc & _).
    pose proof (step_perfectStreak e s t Hinv He Hstep) as Hps.
    pose proof (bnd_streak s Hbnd) as H0.
    split; [exists (first ++ added); rewrite Hadded, Hfirst; now rewrite app_assoc|].
    assert (0 <= match e with
                 | PlaceCommit _ _ =>
                     if negb (isPaused s || gameOver s) && judgedPerfect s
                     then 50 * Z.min (perfectStreak s + 1) MAX_MULTIPLIER else 0
                 | _ => 0
                 end)%Z as Hbonus.
    { destruct e; try lia. destruct (_ && _); unfold MAX_MULTIPLIER; lia. }
    assert (0 <= match e with
                 | PlaceCommit _ _ =>
                     if negb (isPaused s || gameOver s) && judgedPerfect s then 1 else 0
                 | _ => 0
                 end)%Z as Hone.
    { destruct e; try lia. destruct (_ && _); lia. }
    lia.
Qed.

(** X13.  Within a game (no restart) the stack only grows at its top, and the
    score and the perfect streak never decrease. *)
Theorem X13_stack_and_score_only_grow (events : list Event) (s : MainScene) :
  reachable s → forallb withinGame events = true →
  ∃ s' added,
    run events s = Some s' ∧ stackedBlocks s' = stackedBlocks s ++ added ∧
    (score s <= score s')%Z ∧ (perfectStreak s <= perfectStreak s')%Z.
Proof.
  intros Hreach Hgame.
  pose proof (reachable_Bounds s Hreach) as Hbnd.
  apply reachable_invariant in Hreach.
  destruct (run_total events s Hreach) as [s' Hrun].
  destruct (run_growth events s s' Hreach Hbnd Hgame Hrun)
    as ((added & Hadded) & Hscore & Hstreak).
  exists s', added. repeat split; assumption.
Qed.

Lemma X13_stack_and_score_only_grow_witness :
  reachable freshGame ∧
  ∃ s', run [PlaceCommit 0.5 0.5; PlaceCommit 0.51 0.5] freshGame = Some s' ∧
    (score freshGame <= score s')%Z.
Proof.
  assert (reachable freshGame) as Hreach.
  { exists (StorageAvailable None), 0.5, 0.5, [], freshGame.
    split; vm_compute; reflexivity. }
  split; [exact Hreach|].
  destruct (X13_stack_and_score_only_grow
              [PlaceCommit 0.5 0.5; PlaceCommit 0.51 0.5] freshGame Hreach eq_refl)
    as (s' & added & Hrun & _ & Hscore & _).
  exists s'. split; [exact Hrun | exact Hscore].
Defined.

(** X14.  No event makes the scene of a game throw, whatever its arguments:
    every handler returns, and afterwards there still is an active block. *)
Theorem X14_handlers_never_throw (e : Event) (s : MainScene) :
  reachable s → ∃ s', step e s = Some s' ∧ is_Some (currentBlock s').
Proof.
  intros Hreach. apply reachable_invariant in Hreach.
  destruct (step_total e s Hreach) as [s' Hstep]. exists s'.
  split; [exact Hstep|].
  destruct (inv_current s' (step_invariant e s s' Hreach Hstep))
    as (cur & b & Hcur & _).
  rewrite Hcur. eauto.
Qed.

Lemma X14_handlers_never_throw_witness :
  reachable freshGame ∧ ∃ s', step (Frame 1000) freshGame = Some s'.
Proof.
  assert (reachable freshGame) as Hreach.
  { exists (StorageAvailable None), 0.5, 0.5, [], freshGame.
    split; vm_compute; reflexivity. }
  split; [exact Hreach|].
  destruct (X14_handlers_never_throw (Frame 1000) freshGame Hreach) as (s' & Hs' & _).
  exists s'. exact Hs'.
Defined.

(** X15.  What [updateHighScore] saves is what [init] loads: when the score
    beats the high score and the storage works, the new high score is
    written, and every later [init] over that storage, on this scene object
    or on a new one, sets [highScore] to it. *)
Theorem X15_saved_high_score_is_loaded (s t : MainScene) (item : option Z) :
  localStorage s = StorageAvailable item → (score s > highScore s)%Z →
  localStorage t = localStorage (updateHighScore s) →
  highScore (updateHighScore s) = score s ∧
  localStorage (updateHighScore s) = StorageAvailable (Some (score s)) ∧
  highScore (init t) = score s.
Proof.
  intros Hstorage Hbeats Hsame.
  pose proof (updateHighScore_saves s item Hstorage Hbeats) as Hsaved.
  rewrite Hsaved in Hsame.
  split; [rewrite updateHighScore_max; lia|]. split; [exact Hsaved|].
  unfold init. scene_simpl. rewrite Hsame. reflexivity.
Qed.

Lemma X15_saved_high_score_is_loaded_witness :
  score (sceneAfter [PlaceCommit 0.5 0.5; PlaceCommit 0.5 0.5]) = 50%Z ∧
  highScore (init (constructed (StorageAvailable (Some 50%Z))))
  = score (sceneAfter [PlaceCommit 0.5 0.5; PlaceCommit 0.5 0.5]).
Proof.
  split; [vm_compute; reflexivity|].
  eapply (X15_saved_high_score_is_loaded
            (sceneAfter [PlaceCommit 0.5 0.5; PlaceCommit 0.5 0.5])
            (constructed (StorageAvailable (Some 50%Z))) None).
  - vm_compute. reflexivity.
  - vm_compute. reflexivity.
  - vm_compute. reflexivity.
Defined.

Lemma restart_fields (rndX rndDir : Q) (s s' : MainScene) :
  restart rndX rndDir s = Some s' →
  score s' = 0%Z ∧ level s' = 1%Z ∧ stackedBlocks s' = [] ∧
  gameOver s' = false ∧ isPaused s' = false ∧ pendingSpawns s' = 0%nat ∧
  localStorage s' = localStorage s ∧
  highScore s' = match localStorage s with
                 | StorageAvailable (Some saved) => saved
                 | _ => highScore s
                 end ∧
  perfectStreak s' = perfectStreak s ∧ currentVelocity s' = currentVelocity s ∧
  lastFrameTime s' = lastFrameTime s.
Proof.
  unfold restart, create. intros H.
  apply createNewBlock_inv in H as (config & block & shadow & _ & _ & ->).
  unfold init. scene_simpl.
  destruct (localStorage s) as [|[saved|]] eqn:Hst; scene_simpl; rewrite ?Hst;
    repeat apply conj; reflexivity.
Qed.

(** X16.  A restart of a lost game always succeeds and starts a game that is
    Playing, with score 0, level 1, an empty stack, no suspended spawn and the
    first block on the base line y = 500; it keeps the high score and the
    storage of the lost game, and also its perfect streak, its velocity and
    its frame clock. *)
Theorem X16_restart_starts_a_new_game (rndX rndDir : Q) (s : MainScene) :
  reachable s → gameOver s = true →
  ∃ s' cur b,
    step (RestartPressed rndX rndDir) s = Some s' ∧ Playing s' ∧
    score s' = 0%Z ∧ level s' = 1%Z ∧ stackedBlocks s' = [] ∧
    pendingSpawns s' = 0%nat ∧
    highScore s' = highScore s ∧ localStorage s' = localStorage s ∧
    perfectStreak s' = perfectStreak s ∧ currentVelocity s' = currentVelocity s ∧
    lastFrameTime s' = lastFrameTime s ∧
    currentBlock s' = Some cur ∧ rectangles s' !! cur = Some b ∧ rect_y b == 500.
Proof.
  intros Hreach Hover.
  pose proof (reachable_Bounds s Hreach) as Hbnd.
  apply reachable_invariant in Hreach.
  destruct (step_total (RestartPressed rndX rndDir) s Hreach) as [s' Hstep].
  pose proof (step_invariant _ s s' Hreach Hstep) as Hinv'.
  pose proof (step_Bounds _ s s' Hreach Hbnd Hstep) as Hbnd'.
  destruct (inv_current s' Hinv') as (cur & b & Hcur & Hb & _).
  exists s', cur, b. split; [exact Hstep|].
  pose proof (bnd_currentY s' Hbnd' cur b Hcur Hb) as [Hexact _].
  assert (restart rndX rndDir s = Some s') as Hres.
  { rewrite <- Hstep. cbn [step]. now rewrite Hover. }
  apply restart_fields in Hres
    as (Hsc & Hl & Hempty & Hgo & Hpa & Hpending & Hls & Hhs & Hps & Hv & Hft).
  assert (highScore s' = highScore s) as Hsame.
  { rewrite Hhs. pose proof (bnd_loaded s Hbnd) as Hloaded.
    destruct (localStorage s) as [|[saved|]]; try reflexivity.
    symmetry. apply Hloaded. reflexivity. }
  assert (rect_y b == 500) as Hy.
  { rewrite Hempty in Hexact. rewrite Hexact by (cbn [length]; lia).
    change (inject_Z (Z.of_nat (length (@nil nat)))) with 0. ring. }
  assert (Playing s') as Hplay.
  { split; [exact Hgo|]. split; [exact Hpa|]. rewrite Hcur. eauto. }
  split; [exact Hplay|]. repeat apply conj; assumption.
Qed.

Lemma X16_restart_starts_a_new_game_witness :
  reachable lostGame ∧ gameOver lostGame = true ∧
  ∃ s', step (RestartPressed 0.5 0.5) lostGame = Some s' ∧ Playing s'.
Proof.
  assert (reachable lostGame) as Hreach.
  { exists (StorageAvailable None), 0.5, 0.5,
      [PlaceCommit 0.5 0.5; Frame 1000; Frame 1016.667;
       PlaceCommit 0 0.5; PlaceCommit 0 0], freshGame.
    split; vm_compute; reflexivity. }
  assert (gameOver lostGame = true) as Hover by (vm_compute; reflexivity).
  split; [exact Hreach|]. split; [exact Hover|].
  destruct (X16_restart_starts_a_new_game 0.5 0.5 lostGame Hreach Hover)
    as (s' & cur & b & Hstep & Hplay & _).
  exists s'. split; [exact Hstep | exact Hplay].
Defined.


